(** * South-East-Asian line breaking: script dispatcher and LSTM engine

    A shallow embedding of [linebreak_sa.cpp] (the script dispatcher
    [BreakSALine]) and [lstmbe.cpp] (the array primitives, the LSTM cell
    [compute] and the bidirectional engine [breakWord]), followed by the
    properties proved about them.

    Conventions of the embedding.
    - [int32_t] positions and code points are integers [Z].  Positions
      index the text buffer; the code only steps from one bound of the
      range it was given to the other and subtracts the two bounds, which
      does not wrap for indices of one buffer.  Array sizes and loop
      counters that the code keeps non-negative are [nat].
    - [float] is an abstract scalar (class [Scalar]): the operations the
      code uses on it ([+], [*], [/], unary [-], [expf], [std::tanh],
      [>], the constants [0] and [1.0f]) are the members of the class and
      nothing is assumed about them unless a statement says so.
    - A [float*] is the list of scalars it points to; pointer arithmetic
      [p + k] is [drop k].  Reading outside the list (undefined behaviour
      in the source) yields [fzero].
    - The break callback and its context are the log of the positions the
      callback has been invoked with, oldest first. *)

From stdpp Require Import base list sorting.
From Stdlib Require Import ZArith Lia.

(** ** Scalars *)

Class Scalar := {
  F : Type;
  fzero : F;
  fone : F;
  fadd : F → F → F;
  fmul : F → F → F;
  fdiv : F → F → F;
  fneg : F → F;
  fexp : F → F;
  ftanh : F → F;
  fgt : F → F → bool;
}.

(** ** Loops *)

(** [for (i = lo; i < hi; i++) s = body i s]. *)
Definition for_range {St : Type} (lo hi : nat) (body : nat → St → St) (s : St) : St :=
  fold_left (λ s i, body i s) (seq lo (hi - lo)) s.

(** [for (i = n - 1; i >= 0; i--) s = body i s]. *)
Definition for_down {St : Type} (n : nat) (body : nat → St → St) (s : St) : St :=
  fold_left (λ s i, body i s) (rev (seq 0 n)) s.

(** [for (pos = lo; pos < hi; pos++) s = body pos s] over [int32_t]. *)
Definition positions (lo hi : Z) : list Z :=
  map (λ k : nat, (lo + Z.of_nat k)%Z) (seq 0 (Z.to_nat (hi - lo))).

Definition for_positions {St : Type} (lo hi : Z) (body : Z → St → St) (s : St) : St :=
  fold_left (λ s pos, body pos s) (positions lo hi) s.

(** ** Script classification ([linebreak_sa.cpp]) *)

Inductive SALang := THAI | LAO | BURMESE | KHMER | UNK.

Global Instance SALang_eq_dec : EqDecision SALang.
Proof. solve_decision. Defined.

Definition classify_language (ch : Z) : SALang :=
  if (0x0E00 <=? ch)%Z && (ch <? 0x0E80)%Z then THAI
  else if (0x0E80 <=? ch)%Z && (ch <? 0x0F00)%Z then LAO
  else if (0x1000 <=? ch)%Z && (ch <? 0x10A0)%Z then BURMESE
  else if (0x1780 <=? ch)%Z && (ch <? 0x1800)%Z then KHMER
  else UNK.

(** ** Array views and buffers ([lstmbe.cpp]) *)

(** [Array1D]: a writable window of [d1_] scalars, owned ([calloc]) or a
    slice of another buffer.  The window is the list of its scalars. *)
Abbreviation Array1D := (list F).

Section Arrays.
Context `{Scalar}.

(** [p[i]] for a [float* p]. *)
Definition rd (p : list F) (i : nat) : F := default fzero (p !! i).

(** The two reading interfaces: an object is its methods. *)
Record ReadArray1D := { d1 : nat; get : nat → F }.
Record ReadArray2D := { d1_2 : nat; d2 : nat; get2 : nat → nat → F }.

(** [ConstArray1D]: a borrowed pointer and a length. *)
Record ConstArray1D := { ca1_data : list F; ca1_d1 : nat }.

Definition ConstArray1D_read (a : ConstArray1D) : ReadArray1D :=
  {| d1 := ca1_d1 a; get := λ i, rd (ca1_data a) i |}.

(** [ConstArray2D]: a borrowed pointer and two dimensions, row-major. *)
Record ConstArray2D := { ca2_data : list F; ca2_d1 : nat; ca2_d2 : nat }.

Definition ConstArray2D_init (data : list F) (d1 d2 : nat) : ConstArray2D :=
  {| ca2_data := data; ca2_d1 := d1; ca2_d2 := d2 |}.

Definition ConstArray1D_init (data : list F) (d1 : nat) : ConstArray1D :=
  {| ca1_data := data; ca1_d1 := d1 |}.

Definition ConstArray2D_read (a : ConstArray2D) : ReadArray2D :=
  {| d1_2 := ca2_d1 a; d2 := ca2_d2 a;
     get2 := λ i j, rd (ca2_data a) (i * ca2_d2 a + j) |}.

Definition ConstArray2D_row (a : ConstArray2D) (i : nat) : ConstArray1D :=
  {| ca1_data := drop (i * ca2_d2 a) (ca2_data a); ca1_d1 := ca2_d2 a |}.

(** [Array1D] (see the abbreviation above) and its methods. *)
Definition Array1D_new (d1 : nat) : Array1D := replicate d1 fzero.

Definition Array1D_read (a : Array1D) : ReadArray1D :=
  {| d1 := length a; get := rd a |}.

Definition maxIndex (a : Array1D) : nat :=
  fst (for_range 1 (length a)
         (λ i '(index, max),
            if fgt (rd a i) max then (i, rd a i) else (index, max))
         (0, rd a 0)).

(** [slice(from, size)] aliases the parent's storage: [slice] is what the
    alias reads, [slice_put] is the parent after the alias was written, and
    [on_slice from size op] runs a method on the alias. *)
Definition slice (from size : nat) (a : Array1D) : Array1D :=
  take size (drop from a).

Definition slice_put (from size : nat) (s : Array1D) (a : Array1D) : Array1D :=
  take from a ++ s ++ drop (from + size) a.

Definition on_slice (from size : nat) (op : Array1D → Array1D) (a : Array1D) : Array1D :=
  slice_put from size (op (slice from size a)) a.

Definition addDotProduct (a : ReadArray1D) (b : ReadArray2D) (this : Array1D) : Array1D :=
  for_range 0 (length this) (λ i this,
    for_range 0 (d1 a) (λ j this,
      <[i := fadd (rd this i) (fmul (get a j) (get2 b j i))]> this) this) this.

Definition hadamardProduct (a : ReadArray1D) (this : Array1D) : Array1D :=
  for_range 0 (length this) (λ i this,
    <[i := fmul (rd this i) (get a i)]> this) this.

Definition addHadamardProduct (a b : ReadArray1D) (this : Array1D) : Array1D :=
  for_range 0 (length this) (λ i this,
    <[i := fadd (rd this i) (fmul (get a i) (get b i))]> this) this.

Definition add (a : ReadArray1D) (this : Array1D) : Array1D :=
  for_range 0 (length this) (λ i this,
    <[i := fadd (rd this i) (get a i)]> this) this.

Definition assign (a : ReadArray1D) (this : Array1D) : Array1D :=
  for_range 0 (length this) (λ i this, <[i := get a i]> this) this.

(** [tanh(a)] with [a] another buffer. *)
Definition tanh_of (a : Array1D) (this : Array1D) : Array1D :=
  for_range 0 (length this) (λ i this, <[i := ftanh (rd a i)]> this) this.

(** [tanh()] is [tanh( *this )]: the source read is the buffer being written. *)
Definition tanh (this : Array1D) : Array1D :=
  for_range 0 (length this) (λ i this, <[i := ftanh (rd this i)]> this) this.

Definition sigmoid (this : Array1D) : Array1D :=
  for_range 0 (length this) (λ i this,
    <[i := fdiv fone (fadd fone (fexp (fneg (rd this i))))]> this) this.

Definition clear (this : Array1D) : Array1D := replicate (length this) fzero.

(** [Array2D]: an owned [d1 * d2] buffer, row-major. *)
Record Array2D := { a2_data : list F; a2_d1 : nat; a2_d2 : nat }.

Definition Array2D_new (d1 d2 : nat) : Array2D :=
  {| a2_data := replicate (d1 * d2) fzero; a2_d1 := d1; a2_d2 := d2 |}.

(** [row(i)] aliases the row: [Array2D_row] reads it, [Array2D_row_put]
    is the buffer after the alias was written. *)
Definition Array2D_row (a : Array2D) (i : nat) : Array1D :=
  slice (i * a2_d2 a) (a2_d2 a) (a2_data a).

Definition Array2D_row_put (i : nat) (r : Array1D) (a : Array2D) : Array2D :=
  {| a2_data := slice_put (i * a2_d2 a) (a2_d2 a) r (a2_data a);
     a2_d1 := a2_d1 a; a2_d2 := a2_d2 a |}.

End Arrays.

(** ** The model blob and its nine views ([lstm_data.h], [LSTMData]) *)

Record lstm_data `{Scalar} := {
  num_index : nat;
  embedding_size : nat;
  hunits : nat;
  mapping : Z → Z;
  matrices : list F;
}.

Record LSTMData `{Scalar} := {
  model : lstm_data;
  fEmbedding : ConstArray2D;
  fForwardW : ConstArray2D;
  fForwardU : ConstArray2D;
  fForwardB : ConstArray1D;
  fBackwardW : ConstArray2D;
  fBackwardU : ConstArray2D;
  fBackwardB : ConstArray1D;
  fOutputW : ConstArray2D;
  fOutputB : ConstArray1D;
}.

(** The callback with its context: the positions reported so far. *)
Abbreviation CallbackLog := (list Z).

Section Engine.
Context `{Scalar}.

Definition LSTMData_new (model : lstm_data) : LSTMData :=
  let mat1_size := (num_index model + 1) * embedding_size model in
  let mat2_size := embedding_size model * 4 * hunits model in
  let mat3_size := hunits model * 4 * hunits model in
  let mat4_size := 4 * hunits model in
  let mat5_size := mat2_size in
  let mat6_size := mat3_size in
  let mat7_size := mat4_size in
  let mat8_size := 2 * hunits model * 4 in
  let matrices0 := matrices model in
  let fEmbedding := ConstArray2D_init matrices0 (num_index model + 1) (embedding_size model) in
  let matrices1 := drop mat1_size matrices0 in
  let fForwardW := ConstArray2D_init matrices1 (embedding_size model) (4 * hunits model) in
  let matrices2 := drop mat2_size matrices1 in
  let fForwardU := ConstArray2D_init matrices2 (hunits model) (4 * hunits model) in
  let matrices3 := drop mat3_size matrices2 in
  let fForwardB := ConstArray1D_init matrices3 (4 * hunits model) in
  let matrices4 := drop mat4_size matrices3 in
  let fBackwardW := ConstArray2D_init matrices4 (embedding_size model) (4 * hunits model) in
  let matrices5 := drop mat5_size matrices4 in
  let fBackwardU := ConstArray2D_init matrices5 (hunits model) (4 * hunits model) in
  let matrices6 := drop mat6_size matrices5 in
  let fBackwardB := ConstArray1D_init matrices6 (4 * hunits model) in
  let matrices7 := drop mat7_size matrices6 in
  let fOutputW := ConstArray2D_init matrices7 (2 * hunits model) 4 in
  let matrices8 := drop mat8_size matrices7 in
  let fOutputB := ConstArray1D_init matrices8 4 in
  {| model := model;
     fEmbedding := fEmbedding;
     fForwardW := fForwardW; fForwardU := fForwardU; fForwardB := fForwardB;
     fBackwardW := fBackwardW; fBackwardU := fBackwardU; fBackwardB := fBackwardB;
     fOutputW := fOutputW; fOutputB := fOutputB |}.

(** ** The LSTM cell ([compute]) *)

(** [h], [c] and [ifco] are passed by reference: the function returns the
    three buffers as the call leaves them. *)
Definition compute (hunits : nat) (W U : ReadArray2D) (b x : ReadArray1D)
    (h c ifco : Array1D) : Array1D * Array1D * Array1D :=
  let ifco := assign b ifco in
  let ifco := addDotProduct x W ifco in
  let ifco := addDotProduct (Array1D_read h) U ifco in
  let ifco := on_slice (0 * hunits) hunits sigmoid ifco in
  let ifco := on_slice (1 * hunits) hunits sigmoid ifco in
  let ifco := on_slice (2 * hunits) hunits tanh ifco in
  let ifco := on_slice (3 * hunits) hunits sigmoid ifco in
  let c := hadamardProduct (Array1D_read (slice hunits hunits ifco)) c in
  let c := addHadamardProduct (Array1D_read (slice 0 hunits ifco))
             (Array1D_read (slice (2 * hunits) hunits ifco)) c in
  let h := tanh_of c h in
  let h := hadamardProduct (Array1D_read (slice (3 * hunits) hunits ifco)) h in
  (h, c, ifco).

(** ** The engine ([LSTMBreakEngine::breakWord]) *)

(** [typedef enum { BEGIN, INSIDE, END, SINGLE } LSTMClass]. *)
Definition BEGIN : nat := 0.
Definition INSIDE : nat := 1.
Definition END : nat := 2.
Definition SINGLE : nat := 3.

(** The callback: it appends the position to the log. *)
Definition foundBreak (pos : Z) (log : CallbackLog) : CallbackLog := log ++ [pos].

(** The vectorisation loop; [malloc]ed memory is written before it is read. *)
Definition vectorize (fData : LSTMData) (text : Z → Z) (startPos : Z) (input_seq_len : nat) : list Z :=
  for_range 0 input_seq_len (λ i indices,
    <[i := mapping (model fData) (text (startPos + Z.of_nat i)%Z)]> indices)
    (replicate input_seq_len 0%Z).

(** Row [indices[i]] of the embedding table. *)
Definition embedding_row (fData : LSTMData) (indices : list Z) (i : nat) : ReadArray1D :=
  ConstArray1D_read (ConstArray2D_row (fEmbedding fData) (Z.to_nat (default 0%Z (indices !! i)))).

(** The backward loop, on the buffers [hBackward], [c] and [ifco]. *)
Definition backward_pass (fData : LSTMData) (indices : list Z) (input_seq_len hunits : nat)
    (st : Array2D * Array1D * Array1D) : Array2D * Array1D * Array1D :=
  for_down input_seq_len (λ i '(hBackward, c, ifco),
    let hRow := Array2D_row hBackward i in
    let hRow :=
      if decide (i ≠ input_seq_len - 1)
      then assign (Array1D_read (Array2D_row hBackward (i + 1))) hRow
      else hRow in
    let '(hRow, c, ifco) :=
      compute hunits
        (ConstArray2D_read (fBackwardW fData)) (ConstArray2D_read (fBackwardU fData))
        (ConstArray1D_read (fBackwardB fData))
        (embedding_row fData indices i)
        hRow c ifco in
    (Array2D_row_put i hRow hBackward, c, ifco)) st.

(** The fused forward and output loop, on [fbRow], [c], [ifco], [logp] and
    the callback log; [forwardRow] and [backwardRow] are the two halves of
    [fbRow]. *)
Definition forward_pass (fData : LSTMData) (indices : list Z) (input_seq_len hunits : nat)
    (startPos : Z) (hBackward : Array2D)
    (st : Array1D * Array1D * Array1D * Array1D * CallbackLog)
    : Array1D * Array1D * Array1D * Array1D * CallbackLog :=
  for_range 0 input_seq_len (λ i '(fbRow, c, ifco, logp, log),
    let '(forwardRow, c, ifco) :=
      compute hunits
        (ConstArray2D_read (fForwardW fData)) (ConstArray2D_read (fForwardU fData))
        (ConstArray1D_read (fForwardB fData))
        (embedding_row fData indices i)
        (slice 0 hunits fbRow) c ifco in
    let fbRow := slice_put 0 hunits forwardRow fbRow in
    let fbRow := on_slice hunits hunits (assign (Array1D_read (Array2D_row hBackward i))) fbRow in
    let logp := assign (ConstArray1D_read (fOutputB fData)) logp in
    let logp := addDotProduct (Array1D_read fbRow) (ConstArray2D_read (fOutputW fData)) logp in
    let current := maxIndex logp in
    let log :=
      if bool_decide (current = BEGIN) || bool_decide (current = SINGLE)
      then (if decide (i ≠ 0) then foundBreak (startPos + Z.of_nat i)%Z log else log)
      else log in
    (fbRow, c, ifco, logp, log)) st.

Definition breakWord (fData : LSTMData) (text : Z → Z) (startPos endPos : Z)
    (log : CallbackLog) : Z * CallbackLog :=
  let input_seq_len := (endPos - startPos)%Z in
  if (input_seq_len >? 2048)%Z then ((-1)%Z, log)
  else
    let indices := vectorize fData text startPos (Z.to_nat input_seq_len) in
    let hunits := ca2_d1 (fForwardU fData) in
    let ifco := Array1D_new (4 * hunits) in
    let c := Array1D_new hunits in
    let logp := Array1D_new 4 in
    let hBackward := Array2D_new (Z.to_nat input_seq_len) hunits in
    let fbRow := Array1D_new (2 * hunits) in
    let '(hBackward, c, ifco) :=
      backward_pass fData indices (Z.to_nat input_seq_len) hunits (hBackward, c, ifco) in
    let c := clear c in
    let '(fbRow, c, ifco, logp, log) :=
      forward_pass fData indices (Z.to_nat input_seq_len) hunits startPos hBackward
        (fbRow, c, ifco, logp, log) in
    (0%Z, log).

End Engine.

(** ** The dispatcher ([BreakSALine]) *)

(** The dispatcher is written over the engine it links against: the four
    engine singletons, [breakWord], and the state [World] that an engine
    call changes (for the LSTM engine, the callback log). *)
Section Dispatcher.
Context {Engine World : Type}.
Variables get_break_engine_singleton_thai get_break_engine_singleton_lao
          get_break_engine_singleton_burmese get_break_engine_singleton_khmer : Engine.
Variable engine_breakWord : Engine → (Z → Z) → Z → Z → World → Z * World.

Definition get_break_engine_by_lang (lang : SALang) : Engine :=
  match lang with
  | THAI => get_break_engine_singleton_thai
  | LAO => get_break_engine_singleton_lao
  | BURMESE => get_break_engine_singleton_burmese
  | KHMER => get_break_engine_singleton_khmer
  | UNK => get_break_engine_singleton_thai
  end.

(** One iteration of the walk, on [(lang_chunk_start, chunk_lang)] and the
    world.  The value [breakWord] returns is dropped, as in the source. *)
Definition BreakSALine_body (text : Z → Z) (pos : Z)
    (st : Z * SALang * World) : Z * SALang * World :=
  let '(lang_chunk_start, chunk_lang, w) := st in
  let lang := classify_language (text pos) in
  if decide (lang ≠ chunk_lang) then
    let w :=
      if decide (chunk_lang ≠ UNK)
      then snd (engine_breakWord (get_break_engine_by_lang chunk_lang)
                  text lang_chunk_start pos w)
      else w in
    (pos, lang, w)
  else (lang_chunk_start, chunk_lang, w).

Definition BreakSALine (text : Z → Z) (rangeStart rangeEnd : Z) (w : World) : Z * World :=
  let '(lang_chunk_start, chunk_lang, w) :=
    for_positions rangeStart rangeEnd (BreakSALine_body text) (rangeStart, UNK, w) in
  let w :=
    if decide (lang_chunk_start ≠ rangeEnd ∧ chunk_lang ≠ UNK)
    then snd (engine_breakWord (get_break_engine_by_lang chunk_lang)
                text lang_chunk_start rangeEnd w)
    else w in
  (0%Z, w).

End Dispatcher.

(** ** The program as linked, and what it is observed through *)

(** [BreakSALine] linked against the LSTM engine and the four model blobs
    ([lstm_model_thai] and the others are external data). *)
Definition BreakSALine_lstm `{Scalar}
    (lstm_model_thai lstm_model_lao lstm_model_burmese lstm_model_khmer : lstm_data)
    (text : Z → Z) (rangeStart rangeEnd : Z) (log : CallbackLog) : Z * CallbackLog :=
  BreakSALine
    (LSTMData_new lstm_model_thai) (LSTMData_new lstm_model_lao)
    (LSTMData_new lstm_model_burmese) (LSTMData_new lstm_model_khmer)
    breakWord text rangeStart rangeEnd log.

(** A chunk: its script and its bounds [(lang, start, end)], for the
    positions [start <= pos < end]. *)
Abbreviation chunk := (SALang * Z * Z)%type.

Definition chunk_positions (ck : chunk) : list Z := positions (snd (fst ck)) (snd ck).

(** [BreakSALine] linked against an engine that only records its calls:
    each singleton is named by its script, and [breakWord] appends
    [(engine, rangeStart, rangeEnd)] to the world and returns [ret]. *)
Definition recording_breakWord (ret : Z) (engine : SALang) (text : Z → Z)
    (rangeStart rangeEnd : Z) (calls : list chunk) : Z * list chunk :=
  (ret, calls ++ [(engine, rangeStart, rangeEnd)]).

Definition engine_calls (text : Z → Z) (rangeStart rangeEnd : Z) : list chunk :=
  snd (BreakSALine THAI LAO BURMESE KHMER (recording_breakWord 0)
         text rangeStart rangeEnd []).

(** The chunks the walk forms, read off the loop's own variables: the walk
    runs against the recording engine and, beside it, whenever an
    iteration replaces [chunk_lang], the chunk
    [(chunk_lang, lang_chunk_start, pos)] it leaves is recorded (unless it
    is the empty chunk the walk starts with); after the loop the chunk
    that is still open is recorded under the source's own test
    [lang_chunk_start != rangeEnd]. *)
Definition observe_chunks (text : Z → Z) (pos : Z)
    (st : (Z * SALang * list chunk) * list chunk) : (Z * SALang * list chunk) * list chunk :=
  let '((lang_chunk_start, chunk_lang, calls), formed) := st in
  let next := BreakSALine_body THAI LAO BURMESE KHMER (recording_breakWord 0) text pos
                (lang_chunk_start, chunk_lang, calls) in
  (next,
   if decide (snd (fst next) ≠ chunk_lang ∧ lang_chunk_start ≠ pos)
   then formed ++ [(chunk_lang, lang_chunk_start, pos)]
   else formed).

Definition chunks_formed (text : Z → Z) (rangeStart rangeEnd : Z) : list chunk :=
  let '((lang_chunk_start, chunk_lang, _), formed) :=
    for_positions rangeStart rangeEnd (observe_chunks text)
      ((rangeStart, UNK, []), []) in
  if decide (lang_chunk_start ≠ rangeEnd)
  then formed ++ [(chunk_lang, lang_chunk_start, rangeEnd)]
  else formed.

(** The chunks [cs], in order, tile [lo, hi): each is non-empty and starts
    where the one before it ends. *)
Fixpoint tiles (lo hi : Z) (cs : list chunk) : Prop :=
  match cs with
  | [] => lo = hi
  | (_, s, e) :: cs' => s = lo ∧ (s < e)%Z ∧ tiles e hi cs'
  end.

(** The chunks [cs] lie in [lo, hi), each non-empty and none starting
    before the one before it ends. *)
Fixpoint ordered (lo hi : Z) (cs : list chunk) : Prop :=
  match cs with
  | [] => (lo ≤ hi)%Z
  | (_, s, e) :: cs' => (lo ≤ s)%Z ∧ (s < e)%Z ∧ ordered e hi cs'
  end.

(** Every position of the chunk has the chunk's script. *)
Definition homogeneous (text : Z → Z) (ck : chunk) : Prop :=
  ∀ p, (snd (fst ck) ≤ p < snd ck)%Z → classify_language (text p) = fst (fst ck).

(** The position that ends the chunk has another script. *)
Definition ends_at_change (text : Z → Z) (ck : chunk) : Prop :=
  classify_language (text (snd ck)) ≠ fst (fst ck).

(** The chunks of a supported script. *)
Definition supported (cs : list chunk) : list chunk :=
  filter (λ ck : chunk, fst (fst ck) ≠ UNK) cs.

(** The world after the engine calls [calls], made in order from [w]. *)
Definition replay {Engine World : Type} (engine_of : SALang → Engine)
    (engine_breakWord : Engine → (Z → Z) → Z → Z → World → Z * World)
    (text : Z → Z) (calls : list chunk) (w : World) : World :=
  fold_left (λ w (ck : chunk),
               snd (engine_breakWord (engine_of (fst (fst ck))) text (snd (fst ck)) (snd ck) w))
            calls w.

(** ** Reference definitions *)

Section Reference.
Context `{Scalar}.

(** The comparison [>] restricted to the entries of an array is a strict
    weak order: irreflexive, transitive, and with a transitive "not
    greater" (as it is for floats when no entry is a NaN). *)
Definition ordered_entries (a : list F) : Prop :=
  (∀ x, x ∈ a → fgt x x = false) ∧
  (∀ x y z, x ∈ a → y ∈ a → z ∈ a →
     fgt x y = true → fgt y z = true → fgt x z = true) ∧
  (∀ x y z, x ∈ a → y ∈ a → z ∈ a →
     fgt x y = false → fgt y z = false → fgt x z = false).

(** An [Array2D] holds [d1 * d2] scalars. *)
Definition rows_ok (a : Array2D) : Prop := length (a2_data a) = a2_d1 a * a2_d2 a.

(** The shapes of the views agree, as the engine's constructor makes them:
    both [W] have one row per embedding coordinate, both [U] one row per
    hidden unit. *)
Definition shapes_ok (fData : LSTMData) : Prop :=
  ca2_d1 (fForwardW fData) = ca2_d2 (fEmbedding fData) ∧
  ca2_d1 (fBackwardW fData) = ca2_d2 (fEmbedding fData) ∧
  ca2_d1 (fBackwardU fData) = ca2_d1 (fForwardU fData).

(** [acc + sum_{j < n} v j * m j], the terms added in increasing [j]. *)
Definition dot_acc (acc : F) (n : nat) (v m : nat → F) : F :=
  fold_left (λ s j, fadd s (fmul (v j) (m j))) (seq 0 n) acc.

(** The logistic function [1 / (1 + e^-x)]. *)
Definition logistic (x : F) : F := fdiv fone (fadd fone (fexp (fneg x))).

(** Entry [k] of [b + x.W + h.U]. *)
Definition preactivation (W U : ReadArray2D) (b x : ReadArray1D) (h : list F) (k : nat) : F :=
  dot_acc (dot_acc (get b k) (d1_2 W) (get x) (λ j, get2 W j k))
          (d1_2 U) (rd h) (λ j, get2 U j k).

(** The forget-gated LSTM equations, entry by entry, for hidden width
    [hunits]; the lanes of the pre-activation are [i], [f], [c~], [o]. *)
Definition gate_i (hunits : nat) W U b x h (i : nat) : F :=
  logistic (preactivation W U b x h (0 * hunits + i)).
Definition gate_f (hunits : nat) W U b x h (i : nat) : F :=
  logistic (preactivation W U b x h (1 * hunits + i)).
Definition gate_c (hunits : nat) W U b x h (i : nat) : F :=
  ftanh (preactivation W U b x h (2 * hunits + i)).
Definition gate_o (hunits : nat) W U b x h (i : nat) : F :=
  logistic (preactivation W U b x h (3 * hunits + i)).

Definition cell_next (hunits : nat) W U b x (h c : list F) (i : nat) : F :=
  fadd (fmul (rd c i) (gate_f hunits W U b x h i))
       (fmul (gate_i hunits W U b x h i) (gate_c hunits W U b x h i)).

Definition hidden_next (hunits : nat) W U b x (h c : list F) (i : nat) : F :=
  fmul (ftanh (cell_next hunits W U b x h c i)) (gate_o hunits W U b x h i).

(** One reference time step: the new [(h, c)]. *)
Definition lstm_step (hunits : nat) (W U : ReadArray2D) (b x : ReadArray1D)
    (hc : list F * list F) : list F * list F :=
  (map (hidden_next hunits W U b x (fst hc) (snd hc)) (seq 0 hunits),
   map (cell_next hunits W U b x (fst hc) (snd hc)) (seq 0 hunits)).

(** The four activated lanes, as the step leaves them in the scratch buffer. *)
Definition lstm_gates (hunits : nat) (W U : ReadArray2D) (b x : ReadArray1D)
    (h : list F) : list F :=
  map (gate_i hunits W U b x h) (seq 0 hunits) ++
  map (gate_f hunits W U b x h) (seq 0 hunits) ++
  map (gate_c hunits W U b x h) (seq 0 hunits) ++
  map (gate_o hunits W U b x h) (seq 0 hunits).

(** The reference bidirectional network over the range
    [startPos, startPos + n). *)
Section BiLSTM.
Variable fData : LSTMData.
Variable text : Z → Z.
Variable startPos : Z.
Variable n : nat.

Let H' : nat := ca2_d1 (fForwardU fData).

Definition ref_embedding (i : nat) : ReadArray1D :=
  ConstArray1D_read (ConstArray2D_row (fEmbedding fData)
    (Z.to_nat (mapping (model fData) (text (startPos + Z.of_nat i)%Z)))).

Definition zero_state : list F * list F := (replicate H' fzero, replicate H' fzero).

(** Forward [(h, c)] after the positions [0 .. i]. *)
Fixpoint forward_state (i : nat) : list F * list F :=
  lstm_step H'
    (ConstArray2D_read (fForwardW fData)) (ConstArray2D_read (fForwardU fData))
    (ConstArray1D_read (fForwardB fData)) (ref_embedding i)
    match i with
    | 0 => zero_state
    | S j => forward_state j
    end.

(** Backward [(h, c)] after the positions [i + k, ..., i], last first. *)
Fixpoint backward_state_from (k i : nat) : list F * list F :=
  lstm_step H'
    (ConstArray2D_read (fBackwardW fData)) (ConstArray2D_read (fBackwardU fData))
    (ConstArray1D_read (fBackwardB fData)) (ref_embedding i)
    match k with
    | 0 => zero_state
    | S k' => backward_state_from k' (S i)
    end.

(** Backward [(h, c)] at position [i]: after the positions [n - 1 .. i]. *)
Definition backward_state (i : nat) : list F * list F :=
  backward_state_from (n - 1 - i) i.

(** The dense layer on [forward h ++ backward h], and the decoded label. *)
Definition logits (i : nat) : list F :=
  map (λ k, dot_acc (rd (ca1_data (fOutputB fData)) k) (2 * H')
              (rd (fst (forward_state i) ++ fst (backward_state i)))
              (λ j, get2 (ConstArray2D_read (fOutputW fData)) j k))
      (seq 0 4).

Definition label (i : nat) : nat := maxIndex (logits i).

(** The positions the contract asks for: [startPos + i] for the [i] with a
    BEGIN or SINGLE label, [i = 0] left out. *)
Definition expected_breaks : list Z :=
  map (λ i : nat, (startPos + Z.of_nat i)%Z)
      (filter (λ i, i ≠ 0 ∧ (label i = BEGIN ∨ label i = SINGLE)) (seq 0 n)).

End BiLSTM.

(** [breakWord] with one cell-state buffer per direction, both zeroed at
    allocation, instead of the shared [c] and its [clear()]. *)
Definition breakWord_two_buffers (fData : LSTMData) (text : Z → Z) (startPos endPos : Z)
    (log : CallbackLog) : Z * CallbackLog :=
  let input_seq_len := (endPos - startPos)%Z in
  if (input_seq_len >? 2048)%Z then ((-1)%Z, log)
  else
    let indices := vectorize fData text startPos (Z.to_nat input_seq_len) in
    let hunits := ca2_d1 (fForwardU fData) in
    let ifco := Array1D_new (4 * hunits) in
    let cBackward := Array1D_new hunits in
    let cForward := Array1D_new hunits in
    let logp := Array1D_new 4 in
    let hBackward := Array2D_new (Z.to_nat input_seq_len) hunits in
    let fbRow := Array1D_new (2 * hunits) in
    let '(hBackward, cBackward, ifco) :=
      backward_pass fData indices (Z.to_nat input_seq_len) hunits (hBackward, cBackward, ifco) in
    let '(fbRow, cForward, ifco, logp, log) :=
      forward_pass fData indices (Z.to_nat input_seq_len) hunits startPos hBackward
        (fbRow, cForward, ifco, logp, log) in
    (0%Z, log).

End Reference.

(** ** The remaining methods, and measures for stating their properties *)

Section More.
Context `{Scalar}.

(** [Array2D::get] through the reading interface. *)
Definition Array2D_read (a : Array2D) : ReadArray2D :=
  {| d1_2 := a2_d1 a; d2 := a2_d2 a;
     get2 := λ i j, rd (a2_data a) (i * a2_d2 a + j) |}.

(** [Array2D::clear]: [memset] over the [d1 * d2] scalars the buffer holds. *)
Definition Array2D_clear (a : Array2D) : Array2D :=
  {| a2_data := replicate (a2_d1 a * a2_d2 a) fzero;
     a2_d1 := a2_d1 a; a2_d2 := a2_d2 a |}.

(** The scalars a view covers: [d1] (or [d1 * d2]) from its pointer on. *)
Definition ConstArray1D_window (a : ConstArray1D) : list F :=
  take (ca1_d1 a) (ca1_data a).

Definition ConstArray2D_window (a : ConstArray2D) : list F :=
  take (ca2_d1 a * ca2_d2 a) (ca2_data a).

(** The blob length the constructor's debug assertion asks for: the sum of
    [mat1_size] to [mat9_size]. *)
Definition blob_size (model : lstm_data) : nat :=
  (num_index model + 1) * embedding_size model +
  embedding_size model * 4 * hunits model +
  hunits model * 4 * hunits model +
  4 * hunits model +
  embedding_size model * 4 * hunits model +
  hunits model * 4 * hunits model +
  4 * hunits model +
  2 * hunits model * 4 +
  4.

(** The comparison [>] on the entries of an array is irreflexive and
    transitive (as it is for floats, NaN included). *)
Definition partially_ordered_entries (a : list F) : Prop :=
  (∀ x, x ∈ a → fgt x x = false) ∧
  (∀ x y z, x ∈ a → y ∈ a → z ∈ a →
     fgt x y = true → fgt y z = true → fgt x z = true).

End More.

(** Neighbouring chunks have different scripts. *)
Fixpoint adjacent_differ (cs : list chunk) : Prop :=
  match cs with
  | ck1 :: cs' =>
      match cs' with
      | ck2 :: _ => fst (fst ck1) ≠ fst (fst ck2)
      | [] => True
      end ∧ adjacent_differ cs'
  | [] => True
  end.

(** [cs] cuts [lo, hi) into maximal runs of one script: the chunks tile
    the range, each has one script, and a chunk that ends inside the range
    ends where the script changes. *)
Definition maximal_runs (text : Z → Z) (lo hi : Z) (cs : list chunk) : Prop :=
  tiles lo hi cs ∧
  Forall (homogeneous text) cs ∧
  Forall (λ ck : chunk, (snd ck < hi)%Z → ends_at_change text ck) cs.

(** ** A small concrete instance, for evaluation *)

(** Integers as scalars: exact arithmetic, [e^x] read as [2^x] (so the
    logistic function is the step [x > 0]) and [tanh] as the sign. *)
Definition Z_scalar : Scalar :=
  {| F := Z; fzero := 0%Z; fone := 1%Z;
     fadd := Z.add; fmul := Z.mul; fdiv := Z.div; fneg := Z.opp;
     fexp := λ x, (2 ^ x)%Z; ftanh := Z.sgn; fgt := Z.gtb |}.

(** A model with three character classes (the code point modulo 3), one
    embedding coordinate and one hidden unit per direction. *)
Definition sample_matrices : list Z :=
  [ 1; -2; 1;
    0; 0; 3; 0;    0; 0; 0; 0;   1; 1; 0; 1;
    0; 0; 3; 0;    0; 0; 0; 0;   1; 1; 0; 1;
    2; 0; 0; 0;    0; 0; 0; 3;
    0; 1; 0; 0 ]%Z.

Definition sample_model : @lstm_data Z_scalar :=
  @Build_lstm_data Z_scalar 2 1 1 (λ cp, (cp mod 3)%Z) sample_matrices.

(** Thai text: the code points U+0E01 + (pos^2 mod 7). *)
Definition sample_thai (pos : Z) : Z := (0x0E01 + (pos * pos) mod 7)%Z.

(** Latin, Thai, Khmer, Latin: ["ab" ++ 4 Thai ++ 3 Khmer ++ "c"]. *)
Definition sample_mixed (pos : Z) : Z :=
  if (pos <? 2)%Z then 0x61%Z
  else if (pos <? 6)%Z then (0x0E01 + pos mod 2)%Z
  else if (pos <? 9)%Z then (0x1780 + pos mod 2)%Z
  else 0x63%Z.

(** 2049 Thai code points followed by Lao ones. *)
Definition sample_long (pos : Z) : Z :=
  if (pos <? 2049)%Z then 0x0E01%Z else (0x0E81 + pos mod 2)%Z.

(** Integers with one unordered value [None] (a NaN): every operation on
    it yields it and every comparison with it is false. *)
Definition lift2 (f : Z → Z → Z) (x y : option Z) : option Z :=
  match x, y with
  | Some a, Some b => Some (f a b)
  | _, _ => None
  end.

Definition nan_scalar : Scalar :=
  {| F := option Z; fzero := Some 0%Z; fone := Some 1%Z;
     fadd := lift2 Z.add; fmul := lift2 Z.mul; fdiv := lift2 Z.div;
     fneg := option_map Z.opp;
     fexp := option_map (λ x, (2 ^ x)%Z); ftanh := option_map Z.sgn;
     fgt := λ x y, match x, y with
                   | Some a, Some b => (a >? b)%Z
                   | _, _ => false
                   end |}.

(** * Properties *)

(** ** Script classification *)

(** C9. The classifier maps a code point to THAI, LAO, BURMESE or KHMER
    exactly on the four half-open intervals, and to UNK exactly outside
    all of them; being a function of the code point alone, it gives each
    code point one class. *)
Theorem classify_language_intervals (ch : Z) :
  (classify_language ch = THAI ↔ (0x0E00 ≤ ch < 0x0E80)%Z) ∧
  (classify_language ch = LAO ↔ (0x0E80 ≤ ch < 0x0F00)%Z) ∧
  (classify_language ch = BURMESE ↔ (0x1000 ≤ ch < 0x10A0)%Z) ∧
  (classify_language ch = KHMER ↔ (0x1780 ≤ ch < 0x1800)%Z) ∧
  (classify_language ch = UNK ↔
     ¬ ((0x0E00 ≤ ch < 0x0E80)%Z ∨ (0x0E80 ≤ ch < 0x0F00)%Z ∨
        (0x1000 ≤ ch < 0x10A0)%Z ∨ (0x1780 ≤ ch < 0x1800)%Z)).
Proof.
  unfold classify_language.
  destruct (Z.leb_spec 0x0E00 ch), (Z.ltb_spec ch 0x0E80),
           (Z.leb_spec 0x0E80 ch), (Z.ltb_spec ch 0x0F00),
           (Z.leb_spec 0x1000 ch), (Z.ltb_spec ch 0x10A0),
           (Z.leb_spec 0x1780 ch), (Z.ltb_spec ch 0x1800);
    simpl; repeat split; intros; try discriminate; try lia.
Qed.

(** ** Loops *)

Lemma for_range_S {St : Type} (lo hi : nat) (body : nat → St → St) (s : St) :
  lo ≤ hi → for_range lo (S hi) body s = body hi (for_range lo hi body s).
Proof.
  intros Hle. unfold for_range.
  replace (S hi - lo) with (S (hi - lo)) by lia.
  rewrite seq_S, fold_left_app. simpl.
  replace (lo + (hi - lo)) with hi by lia. reflexivity.
Qed.

Lemma for_range_empty {St : Type} (lo hi : nat) (body : nat → St → St) (s : St) :
  hi ≤ lo → for_range lo hi body s = s.
Proof.
  intros Hle. unfold for_range. replace (hi - lo) with 0 by lia. reflexivity.
Qed.

(** The invariant rule of the counting loop. *)
Lemma for_range_ind {St : Type} (P : nat → St → Prop) (lo hi : nat)
    (body : nat → St → St) (s : St) :
  lo ≤ hi →
  P lo s →
  (∀ i s, lo ≤ i < hi → P i s → P (S i) (body i s)) →
  P hi (for_range lo hi body s).
Proof.
  intros Hle H0 Hstep. induction hi as [|hi IH].
  - assert (lo = 0) as -> by lia. exact H0.
  - destruct (decide (lo = S hi)) as [->|Hne].
    + rewrite for_range_empty by lia. exact H0.
    + rewrite for_range_S by lia. apply Hstep; [lia|].
      apply IH; [lia|]. intros i s' Hi. apply Hstep. lia.
Qed.

Lemma for_down_S {St : Type} (n : nat) (body : nat → St → St) (s : St) :
  for_down (S n) body s = for_down n body (body n s).
Proof.
  unfold for_down. rewrite seq_S, rev_app_distr. reflexivity.
Qed.

Lemma positions_empty (lo hi : Z) : (hi ≤ lo)%Z → positions lo hi = [].
Proof.
  intros Hle. unfold positions. replace (Z.to_nat (hi - lo)) with 0 by lia.
  reflexivity.
Qed.

Lemma positions_snoc (lo hi : Z) :
  (lo ≤ hi)%Z → positions lo (hi + 1) = positions lo hi ++ [hi].
Proof.
  intros Hle. unfold positions.
  replace (Z.to_nat (hi + 1 - lo)) with (S (Z.to_nat (hi - lo))) by lia.
  rewrite seq_S, map_app. simpl. do 2 f_equal. lia.
Qed.

Lemma positions_cons (lo hi : Z) :
  (lo < hi)%Z → positions lo hi = lo :: positions (lo + 1) hi.
Proof.
  intros Hlt. unfold positions.
  replace (Z.to_nat (hi - lo)) with (S (Z.to_nat (hi - (lo + 1)))) by lia.
  simpl. f_equal; [lia|].
  rewrite <- seq_shift, map_map. apply map_ext. intros k. lia.
Qed.

Lemma elem_of_positions (lo hi p : Z) : p ∈ positions lo hi ↔ (lo ≤ p < hi)%Z.
Proof.
  unfold positions. rewrite list_elem_of_fmap. split.
  - intros (k & -> & Hk). apply elem_of_seq in Hk. lia.
  - intros Hp. exists (Z.to_nat (p - lo)). split; [lia|].
    apply elem_of_seq. lia.
Qed.

Lemma positions_app (lo mid hi : Z) :
  (lo ≤ mid ≤ hi)%Z → positions lo hi = positions lo mid ++ positions mid hi.
Proof.
  intros [H1 H2]. unfold positions.
  replace (Z.to_nat (hi - lo)) with (Z.to_nat (mid - lo) + Z.to_nat (hi - mid)) by lia.
  rewrite seq_app, map_app. f_equal. simpl.
  rewrite <- (Nat.add_0_r (Z.to_nat (mid - lo))) at 1.
  rewrite <- fmap_add_seq.
  change (map ?f (?g <$> ?l)) with (map f (map g l)).
  rewrite map_map. apply map_ext. intros k. lia.
Qed.

Lemma for_positions_snoc {St : Type} (lo hi : Z) (body : Z → St → St) (s : St) :
  (lo ≤ hi)%Z →
  for_positions lo (hi + 1) body s = body hi (for_positions lo hi body s).
Proof.
  intros Hle. unfold for_positions. rewrite positions_snoc by done.
  rewrite fold_left_app. reflexivity.
Qed.

(** The invariant rule of the walk over positions. *)
Lemma for_positions_ind {St : Type} (P : Z → St → Prop) (lo hi : Z)
    (body : Z → St → St) (s : St) :
  (lo ≤ hi)%Z →
  P lo s →
  (∀ pos s, (lo ≤ pos < hi)%Z → P pos s → P (pos + 1)%Z (body pos s)) →
  P hi (for_positions lo hi body s).
Proof.
  intros Hle H0 Hstep.
  assert (∀ n : nat, (lo + Z.of_nat n ≤ hi)%Z →
            P (lo + Z.of_nat n)%Z (for_positions lo (lo + Z.of_nat n) body s)) as Hall.
  { induction n as [|n IH]; intros Hn.
    - unfold for_positions. rewrite positions_empty by lia.
      simpl. replace (lo + Z.of_nat 0)%Z with lo by lia. exact H0.
    - replace (lo + Z.of_nat (S n))%Z with ((lo + Z.of_nat n) + 1)%Z by lia.
      rewrite for_positions_snoc by lia. apply Hstep; [lia|]. apply IH. lia. }
  specialize (Hall (Z.to_nat (hi - lo))).
  replace (lo + Z.of_nat (Z.to_nat (hi - lo)))%Z with hi in Hall by lia.
  apply Hall. lia.
Qed.

(** ** Arrays *)

Section ArrayFacts.
Context `{Scalar}.

Lemma rd_lookup (l : list F) (i : nat) (x : F) : l !! i = Some x → rd l i = x.
Proof. unfold rd. intros ->. reflexivity. Qed.

Lemma rd_elem_of (l : list F) (i : nat) : i < length l → rd l i ∈ l.
Proof.
  intros Hi. destruct (lookup_lt_is_Some_2 l i Hi) as [x Hx].
  rewrite (rd_lookup _ _ _ Hx). eapply list_elem_of_lookup_2, Hx.
Qed.

Lemma rd_insert_eq (l : list F) (i : nat) (x : F) :
  i < length l → rd (<[i:=x]> l) i = x.
Proof. intros Hi. apply rd_lookup, list_lookup_insert_eq, Hi. Qed.

Lemma rd_insert_ne (l : list F) (i j : nat) (x : F) :
  i ≠ j → rd (<[i:=x]> l) j = rd l j.
Proof. intros Hij. unfold rd. rewrite list_lookup_insert_ne; done. Qed.

Lemma rd_map_seq (g : nat → F) (lo n i : nat) :
  i < n → rd (map g (seq lo n)) i = g (lo + i).
Proof.
  intros Hi. apply rd_lookup.
  change (map g (seq lo n)) with (g <$> seq lo n).
  rewrite list_lookup_fmap, lookup_seq_lt by done. reflexivity.
Qed.

Lemma rd_map_seq0 (g : nat → F) (n i : nat) :
  i < n → rd (map g (seq 0 n)) i = g i.
Proof. apply (rd_map_seq g 0 n i). Qed.

Lemma rd_app_l (l1 l2 : list F) (i : nat) :
  i < length l1 → rd (l1 ++ l2) i = rd l1 i.
Proof. intros Hi. unfold rd. rewrite lookup_app_l; done. Qed.

Lemma rd_app_r (l1 l2 : list F) (i : nat) :
  rd (l1 ++ l2) (length l1 + i) = rd l2 i.
Proof.
  unfold rd. rewrite lookup_app_r by lia.
  replace (length l1 + i - length l1) with i by lia. reflexivity.
Qed.

Lemma rd_app_r' (l1 l2 : list F) (n i : nat) :
  n = length l1 → rd (l1 ++ l2) (n + i) = rd l2 i.
Proof. intros ->. apply rd_app_r. Qed.

Lemma rd_drop (l : list F) (k i : nat) : rd (drop k l) i = rd l (k + i).
Proof. unfold rd. rewrite lookup_drop. reflexivity. Qed.

Lemma rd_replicate (n i : nat) : rd (replicate n fzero) i = fzero.
Proof.
  unfold rd. destruct (decide (i < n)) as [Hi|Hi].
  - rewrite lookup_replicate_2; done.
  - rewrite lookup_ge_None_2; [done|]. rewrite length_replicate. lia.
Qed.

(** Two windows of one length with the same entries are the same window. *)
Lemma rd_ext (l1 l2 : list F) :
  length l1 = length l2 →
  (∀ i, i < length l1 → rd l1 i = rd l2 i) →
  l1 = l2.
Proof.
  intros Hlen Hrd. apply list_eq. intros i.
  destruct (decide (i < length l1)) as [Hi|Hi].
  - destruct (lookup_lt_is_Some_2 l1 i Hi) as [x Hx].
    destruct (lookup_lt_is_Some_2 l2 i ltac:(lia)) as [y Hy].
    specialize (Hrd i Hi). rewrite (rd_lookup _ _ _ Hx), (rd_lookup _ _ _ Hy) in Hrd.
    congruence.
  - rewrite !lookup_ge_None_2 by lia. reflexivity.
Qed.

Lemma map_seq_ext_length (l : list F) (g : nat → F) (n : nat) :
  length l = n → (∀ i, i < n → rd l i = g i) → l = map g (seq 0 n).
Proof.
  intros Hlen Hrd. apply rd_ext.
  - rewrite length_map, length_seq. exact Hlen.
  - intros i Hi. rewrite rd_map_seq by lia. apply Hrd. lia.
Qed.

(** A loop [for i < d1: this[i] = f(i, this[i])], whatever its body does
    to reach that, computes the entries independently. *)
Lemma for_range_pointwise (body : nat → list F → list F) (f : nat → F → F) (l : list F) :
  (∀ i t, i < length t →
     length (body i t) = length t ∧
     rd (body i t) i = f i (rd t i) ∧
     ∀ j, j ≠ i → rd (body i t) j = rd t j) →
  for_range 0 (length l) body l = map (λ i, f i (rd l i)) (seq 0 (length l)).
Proof.
  intros Hbody.
  assert (length (for_range 0 (length l) body l) = length l ∧
          (∀ j, j < length l → rd (for_range 0 (length l) body l) j = f j (rd l j)) ∧
          (∀ j, length l ≤ j → rd (for_range 0 (length l) body l) j = rd l j)) as (Hlen & Hlt & _).
  { apply (for_range_ind (λ k t, length t = length l ∧
             (∀ j, j < k → rd t j = f j (rd l j)) ∧
             (∀ j, k ≤ j → rd t j = rd l j))); [lia| |].
    - split; [done|]. split; [intros; lia|done].
    - intros i t Hi (Hlen & Hlt & Hge).
      destruct (Hbody i t ltac:(lia)) as (Hl' & Heq & Hne).
      split; [lia|]. split.
      + intros j Hj. destruct (decide (j = i)) as [->|Hji].
        * rewrite Heq, Hge by lia. reflexivity.
        * rewrite Hne by done. apply Hlt. lia.
      + intros j Hj. rewrite Hne by lia. apply Hge. lia. }
  apply map_seq_ext_length; [exact Hlen|].
  intros i Hi. apply Hlt, Hi.
Qed.

Lemma insert_pointwise (f : nat → F → F) (l : list F) :
  for_range 0 (length l) (λ i this, <[i := f i (rd this i)]> this) l =
  map (λ i, f i (rd l i)) (seq 0 (length l)).
Proof.
  apply for_range_pointwise. intros i t Hi. split; [|split].
  - apply length_insert.
  - apply rd_insert_eq, Hi.
  - intros j Hj. apply rd_insert_ne. done.
Qed.

Lemma assign_eq (a : ReadArray1D) (this : Array1D) :
  assign a this = map (get a) (seq 0 (length this)).
Proof. unfold assign. apply (insert_pointwise (λ i _, get a i)). Qed.

Lemma hadamardProduct_eq (a : ReadArray1D) (this : Array1D) :
  hadamardProduct a this =
  map (λ i, fmul (rd this i) (get a i)) (seq 0 (length this)).
Proof. unfold hadamardProduct. apply (insert_pointwise (λ i v, fmul v (get a i))). Qed.

Lemma addHadamardProduct_eq (a b : ReadArray1D) (this : Array1D) :
  addHadamardProduct a b this =
  map (λ i, fadd (rd this i) (fmul (get a i) (get b i))) (seq 0 (length this)).
Proof.
  unfold addHadamardProduct.
  apply (insert_pointwise (λ i v, fadd v (fmul (get a i) (get b i)))).
Qed.

Lemma tanh_of_eq (a this : Array1D) :
  tanh_of a this = map (λ i, ftanh (rd a i)) (seq 0 (length this)).
Proof. unfold tanh_of. apply (insert_pointwise (λ i _, ftanh (rd a i))). Qed.

Lemma tanh_eq (this : Array1D) :
  tanh this = map (λ i, ftanh (rd this i)) (seq 0 (length this)).
Proof. unfold tanh. apply (insert_pointwise (λ _ v, ftanh v)). Qed.

Lemma sigmoid_eq (this : Array1D) :
  sigmoid this = map (λ i, logistic (rd this i)) (seq 0 (length this)).
Proof. unfold sigmoid. apply (insert_pointwise (λ _ v, logistic v)). Qed.

(** The inner loop of [addDotProduct] accumulates into entry [i] only. *)
Lemma addDotProduct_inner (a : ReadArray1D) (b : ReadArray2D) (i : nat) (this : Array1D) :
  i < length this →
  for_range 0 (d1 a)
    (λ j this, <[i := fadd (rd this i) (fmul (get a j) (get2 b j i))]> this) this =
  <[i := dot_acc (rd this i) (d1 a) (get a) (λ j, get2 b j i)]> this.
Proof.
  intros Hi.
  apply (for_range_ind (λ k t,
    t = <[i := dot_acc (rd this i) k (get a) (λ j, get2 b j i)]> this)); [lia| |].
  - unfold dot_acc. simpl. symmetry. apply list_insert_id.
    unfold rd. destruct (lookup_lt_is_Some_2 this i Hi) as [x ->]. reflexivity.
  - intros k t Hk ->. cbv beta. rewrite rd_insert_eq by done.
    rewrite list_insert_insert_eq. f_equal.
    unfold dot_acc. rewrite seq_S, fold_left_app. reflexivity.
Qed.

Lemma addDotProduct_eq (a : ReadArray1D) (b : ReadArray2D) (this : Array1D) :
  addDotProduct a b this =
  map (λ i, dot_acc (rd this i) (d1 a) (get a) (λ j, get2 b j i)) (seq 0 (length this)).
Proof.
  unfold addDotProduct.
  apply (for_range_pointwise _ (λ i v, dot_acc v (d1 a) (get a) (λ j, get2 b j i))).
  intros i t Hi. rewrite addDotProduct_inner by done. split; [|split].
  - apply length_insert.
  - apply rd_insert_eq, Hi.
  - intros j Hj. apply rd_insert_ne. done.
Qed.

End ArrayFacts.

(** ** Argmax *)

Section MaxIndex.
Context `{Scalar}.

(** What the scan of [maxIndex] has established after the entries below
    [i]: [max] is the entry at [index], no entry seen exceeds it, and it
    exceeds every entry before [index]. *)
Lemma maxIndex_scan (a : list F) :
  a ≠ [] → ordered_entries a →
  let st := for_range 1 (length a)
              (λ i '(index, max), if fgt (rd a i) max then (i, rd a i) else (index, max))
              (0, rd a 0) in
  st.1 < length a ∧ st.2 = rd a st.1 ∧
  (∀ j, j < length a → fgt (rd a j) st.2 = false) ∧
  (∀ j, j < st.1 → fgt st.2 (rd a j) = true).
Proof.
  intros Hne (Hirr & Htrans & Hneg). simpl.
  assert (0 < length a) as Hlen by (destruct a; [done|simpl; lia]).
  apply (for_range_ind (λ i (st : nat * F),
    st.1 < i ∧ st.2 = rd a st.1 ∧
    (∀ j, j < i → fgt (rd a j) st.2 = false) ∧
    (∀ j, j < st.1 → fgt st.2 (rd a j) = true))); [lia| |].
  - simpl. split; [lia|]. split; [done|]. split; [|intros; lia].
    intros j Hj. assert (j = 0) as -> by lia. apply Hirr, rd_elem_of, Hlen.
  - intros i [index max] Hi (Hidx & Hmax & Hle & Hlow). simpl in *. subst max.
    assert (rd a i ∈ a) as Hai by (apply rd_elem_of; lia).
    assert (rd a index ∈ a) as Hax by (apply rd_elem_of; lia).
    destruct (fgt (rd a i) (rd a index)) eqn:Hgt; simpl.
    + assert (fgt (rd a index) (rd a i) = false) as Hasym.
      { destruct (fgt (rd a index) (rd a i)) eqn:Hrev; [|done].
        rewrite <- (Hirr (rd a i) Hai). symmetry.
        apply (Htrans _ (rd a index)); done. }
      split; [lia|]. split; [done|]. split.
      * intros j Hj. destruct (decide (j = i)) as [->|Hji]; [apply Hirr, Hai|].
        apply (Hneg _ (rd a index)); try done; [apply rd_elem_of; lia|].
        apply Hle. lia.
      * intros j Hj. destruct (fgt (rd a i) (rd a j)) eqn:Hij; [done|].
        rewrite <- Hgt. symmetry.
        apply (Hneg _ (rd a j)); try done; [apply rd_elem_of; lia|].
        apply Hle. lia.
    + split; [lia|]. split; [done|]. split; [|done].
      intros j Hj. destruct (decide (j = i)) as [->|Hji]; [done|].
      apply Hle. lia.
Qed.

(** C8. On a non-empty array whose entries [>] orders, [maxIndex] returns
    an index of the array at which no entry is exceeded (a maximum), and
    every entry at a lower index is strictly smaller, so among equal
    maxima the lowest index is returned; on four equal logits the
    decoded label is [BEGIN]. *)
Theorem maxIndex_lowest_maximum (a : list F) :
  a ≠ [] → ordered_entries a →
  maxIndex a < length a ∧
  (∀ j, j < length a → fgt (rd a j) (rd a (maxIndex a)) = false) ∧
  (∀ j, j < maxIndex a → fgt (rd a (maxIndex a)) (rd a j) = true) ∧
  (length a = 4 → (∀ j, j < 4 → rd a j = rd a 0) → maxIndex a = BEGIN).
Proof.
  intros Hne Hord.
  destruct (maxIndex_scan a Hne Hord) as (Hidx & Hmax & Hle & Hlow).
  fold (maxIndex a) in *. rewrite Hmax in Hle, Hlow.
  repeat split; try done.
  intros Hlen Heq. unfold BEGIN.
  destruct (decide (maxIndex a = 0)) as [|Hpos]; [done|].
  assert (fgt (rd a (maxIndex a)) (rd a 0) = true) as Hgt by (apply Hlow; lia).
  rewrite (Heq (maxIndex a)) in Hgt by lia.
  destruct Hord as (Hirr & _). rewrite Hirr in Hgt; [done|].
  apply rd_elem_of. lia.
Qed.

End MaxIndex.

(** ** Slices and rows *)

Section Rows.
Context `{Scalar}.

Lemma for_down_ind {St : Type} (P : nat → St → Prop) (n : nat)
    (body : nat → St → St) (s : St) :
  P n s →
  (∀ i s, i < n → P (S i) s → P i (body i s)) →
  P 0 (for_down n body s).
Proof.
  revert s. induction n as [|n IH]; intros s H0 Hstep; [exact H0|].
  rewrite for_down_S. apply IH.
  - apply Hstep; [lia|exact H0].
  - intros i s' Hi. apply Hstep. lia.
Qed.

Lemma rd_take (l : list F) (n i : nat) : i < n → rd (take n l) i = rd l i.
Proof. intros Hi. unfold rd. rewrite lookup_take_lt; done. Qed.

Lemma rd_slice (l : list F) (from size i : nat) :
  i < size → rd (slice from size l) i = rd l (from + i).
Proof. intros Hi. unfold slice. rewrite rd_take, rd_drop by done. reflexivity. Qed.

Lemma length_slice (l : list F) (from size : nat) :
  from + size ≤ length l → length (slice from size l) = size.
Proof. intros Hle. unfold slice. rewrite length_take, length_drop. lia. Qed.

Lemma length_slice_put (l s : list F) (from size : nat) :
  from + size ≤ length l → length s = size →
  length (slice_put from size s l) = length l.
Proof.
  intros Hle Hs. unfold slice_put.
  rewrite !length_app, length_take, length_drop. lia.
Qed.

Lemma rd_slice_put_in (l s : list F) (from size i : nat) :
  from ≤ length l → length s = size → i < size →
  rd (slice_put from size s l) (from + i) = rd s i.
Proof.
  intros Hle Hs Hi. unfold slice_put.
  rewrite rd_app_r' by (rewrite length_take; lia).
  rewrite rd_app_l by lia. reflexivity.
Qed.

Lemma rd_slice_put_out (l s : list F) (from size k : nat) :
  from + size ≤ length l → length s = size →
  k < from ∨ from + size ≤ k →
  rd (slice_put from size s l) k = rd l k.
Proof.
  intros Hle Hs Hk. unfold slice_put. destruct Hk as [Hk|Hk].
  - rewrite rd_app_l by (rewrite length_take; lia). apply rd_take, Hk.
  - replace k with (from + (size + (k - from - size))) by lia.
    rewrite rd_app_r' by (rewrite length_take; lia).
    rewrite rd_app_r' by done. rewrite rd_drop. f_equal. lia.
Qed.

Lemma rows_ok_new (d1 d2 : nat) : rows_ok (Array2D_new d1 d2).
Proof. unfold rows_ok. simpl. apply length_replicate. Qed.

Lemma row_bounds (a : Array2D) (i : nat) :
  rows_ok a → i < a2_d1 a → i * a2_d2 a + a2_d2 a ≤ length (a2_data a).
Proof. unfold rows_ok. intros -> Hi. nia. Qed.

Lemma length_Array2D_row (a : Array2D) (i : nat) :
  rows_ok a → i < a2_d1 a → length (Array2D_row a i) = a2_d2 a.
Proof. intros Hok Hi. apply length_slice, row_bounds; done. Qed.

Lemma Array2D_row_new (d1 d2 i : nat) :
  i < d1 → Array2D_row (Array2D_new d1 d2) i = replicate d2 fzero.
Proof.
  intros Hi. apply rd_ext.
  - rewrite length_Array2D_row, length_replicate; [done|apply rows_ok_new|done].
  - intros k Hk. unfold Array2D_row in *. simpl in *.
    rewrite length_slice in Hk by (rewrite length_replicate; nia).
    rewrite rd_slice, !rd_replicate by done. reflexivity.
Qed.

Lemma rows_ok_put (a : Array2D) (i : nat) (r : list F) :
  rows_ok a → i < a2_d1 a → length r = a2_d2 a → rows_ok (Array2D_row_put i r a).
Proof.
  intros Hok Hi Hr. unfold rows_ok. simpl.
  rewrite length_slice_put; [exact Hok|apply row_bounds; done|done].
Qed.

Lemma Array2D_row_put_eq (a : Array2D) (i : nat) (r : list F) :
  rows_ok a → i < a2_d1 a → length r = a2_d2 a →
  Array2D_row (Array2D_row_put i r a) i = r.
Proof.
  intros Hok Hi Hr. pose proof (row_bounds a i Hok Hi) as Hb. apply rd_ext.
  - rewrite length_Array2D_row; [done|apply rows_ok_put; done|done].
  - intros k Hk.
    rewrite length_Array2D_row in Hk; [|apply rows_ok_put; done|done].
    simpl in Hk. unfold Array2D_row. simpl.
    rewrite rd_slice, rd_slice_put_in by (done || lia). reflexivity.
Qed.

Lemma Array2D_row_put_ne (a : Array2D) (i j : nat) (r : list F) :
  rows_ok a → i < a2_d1 a → j < a2_d1 a → length r = a2_d2 a → i ≠ j →
  Array2D_row (Array2D_row_put i r a) j = Array2D_row a j.
Proof.
  intros Hok Hi Hj Hr Hij.
  pose proof (row_bounds a i Hok Hi) as Hbi.
  pose proof (row_bounds a j Hok Hj) as Hbj.
  apply rd_ext.
  - rewrite !length_Array2D_row; [done|done|done|apply rows_ok_put; done|done].
  - intros k Hk.
    rewrite length_Array2D_row in Hk; [|apply rows_ok_put; done|done].
    simpl in Hk. unfold Array2D_row. simpl.
    rewrite !rd_slice by done. apply rd_slice_put_out; [done|done|].
    destruct (decide (j < i)); [left|right]; nia.
Qed.

End Rows.

(** ** The LSTM cell *)

Section Cell.
Context `{Scalar}.

Lemma map_seq_ext {B : Type} (f g : nat → B) (n : nat) :
  (∀ i, i < n → f i = g i) → map f (seq 0 n) = map g (seq 0 n).
Proof.
  intros Hfg. apply map_ext_in. intros i Hi. apply in_seq in Hi. apply Hfg. lia.
Qed.

Lemma map_seq_add {B : Type} (g : nat → B) (a b : nat) :
  map g (seq 0 (a + b)) = map g (seq 0 a) ++ map (λ i, g (a + i)) (seq 0 b).
Proof.
  rewrite seq_app, map_app. f_equal. simpl.
  rewrite <- (Nat.add_0_r a) at 1. rewrite <- fmap_add_seq.
  change (map g (Nat.add a <$> seq 0 b)) with (map g (map (Nat.add a) (seq 0 b))).
  rewrite map_map. reflexivity.
Qed.

(** A buffer of [4 * n] entries, lane by lane. *)
Lemma map_seq_lanes (g : nat → F) (n : nat) :
  map g (seq 0 (4 * n)) =
  map (λ i, g (0 * n + i)) (seq 0 n) ++ map (λ i, g (1 * n + i)) (seq 0 n) ++
  map (λ i, g (2 * n + i)) (seq 0 n) ++ map (λ i, g (3 * n + i)) (seq 0 n).
Proof.
  replace (4 * n) with (n + (n + (n + n))) by lia.
  rewrite !map_seq_add.
  repeat (apply (f_equal2 app); [apply map_seq_ext; intros; f_equal; lia|]).
  apply map_seq_ext; intros; f_equal; lia.
Qed.

Lemma slice_app (l1 l2 l3 : list F) (from size : nat) :
  from = length l1 → size = length l2 → slice from size (l1 ++ l2 ++ l3) = l2.
Proof.
  intros -> ->. unfold slice. rewrite drop_app_length, take_app_length. reflexivity.
Qed.

Lemma slice_put_app (l1 l2 l3 s : list F) (from size : nat) :
  from = length l1 → size = length l2 →
  slice_put from size s (l1 ++ l2 ++ l3) = l1 ++ s ++ l3.
Proof.
  intros -> ->. unfold slice_put. rewrite take_app_length. do 2 f_equal.
  rewrite <- drop_drop, drop_app_length, drop_app_length. reflexivity.
Qed.

Lemma on_slice_app (op : list F → list F) (l1 l2 l3 : list F) (from size : nat) :
  from = length l1 → size = length l2 →
  on_slice from size op (l1 ++ l2 ++ l3) = l1 ++ op l2 ++ l3.
Proof.
  intros Hf Hs. unfold on_slice.
  rewrite slice_app, slice_put_app by done. reflexivity.
Qed.

Lemma length_map_seq {B : Type} (g : nat → B) (lo n : nat) : length (map g (seq lo n)) = n.
Proof. rewrite length_map, length_seq. reflexivity. Qed.

Lemma sigmoid_map_seq (g : nat → F) (n : nat) :
  sigmoid (map g (seq 0 n)) = map (λ i, logistic (g i)) (seq 0 n).
Proof.
  rewrite sigmoid_eq, length_map_seq. apply map_seq_ext.
  intros i Hi. rewrite rd_map_seq by done. reflexivity.
Qed.

Lemma tanh_map_seq (g : nat → F) (n : nat) :
  tanh (map g (seq 0 n)) = map (λ i, ftanh (g i)) (seq 0 n).
Proof.
  rewrite tanh_eq, length_map_seq. apply map_seq_ext.
  intros i Hi. rewrite rd_map_seq by done. reflexivity.
Qed.

(** The three accumulations leave the pre-activations in [ifco]. *)
Lemma compute_preactivation (n : nat) (W U : ReadArray2D) (b x : ReadArray1D)
    (h ifco : list F) :
  length ifco = n → d1 x = d1_2 W → length h = d1_2 U →
  addDotProduct (Array1D_read h) U (addDotProduct x W (assign b ifco)) =
  map (preactivation W U b x h) (seq 0 n).
Proof.
  intros Hifco Hx Hh.
  rewrite assign_eq, !addDotProduct_eq, !length_map_seq, Hifco.
  apply map_seq_ext. intros i Hi.
  rewrite !rd_map_seq by done. simpl. rewrite Hx, Hh. reflexivity.
Qed.

(** Four lanes of one width: reading and writing each through its slice. *)
Section Lanes.
Variables (n : nat) (L0 L1 L2 L3 : list F).
Hypothesis (H0 : length L0 = n) (H1 : length L1 = n) (H2 : length L2 = n) (H3 : length L3 = n).

Lemma slice_lane0 : slice (0 * n) n (L0 ++ L1 ++ L2 ++ L3) = L0.
Proof. apply (slice_app [] L0 (L1 ++ L2 ++ L3)); simpl; lia. Qed.

Lemma slice_lane1 : slice (1 * n) n (L0 ++ L1 ++ L2 ++ L3) = L1.
Proof. apply (slice_app L0 L1 (L2 ++ L3)); lia. Qed.

Lemma slice_lane2 : slice (2 * n) n (L0 ++ L1 ++ L2 ++ L3) = L2.
Proof.
  rewrite (app_assoc L0 L1). apply (slice_app (L0 ++ L1) L2 L3); [|lia].
  rewrite length_app. lia.
Qed.

Lemma slice_lane3 : slice (3 * n) n (L0 ++ L1 ++ L2 ++ L3) = L3.
Proof.
  unfold slice. rewrite !drop_app_ge by lia.
  replace (3 * n - length L0 - length L1 - length L2) with 0 by lia.
  simpl. apply take_ge. lia.
Qed.

Lemma on_slice_lane0 (op : list F → list F) :
  on_slice (0 * n) n op (L0 ++ L1 ++ L2 ++ L3) = op L0 ++ L1 ++ L2 ++ L3.
Proof. apply (on_slice_app op [] L0 (L1 ++ L2 ++ L3)); simpl; lia. Qed.

Lemma on_slice_lane1 (op : list F → list F) :
  on_slice (1 * n) n op (L0 ++ L1 ++ L2 ++ L3) = L0 ++ op L1 ++ L2 ++ L3.
Proof. apply (on_slice_app op L0 L1 (L2 ++ L3)); lia. Qed.

Lemma on_slice_lane2 (op : list F → list F) :
  on_slice (2 * n) n op (L0 ++ L1 ++ L2 ++ L3) = L0 ++ L1 ++ op L2 ++ L3.
Proof.
  rewrite (app_assoc L0 L1), (app_assoc L0 L1 (op L2 ++ L3)).
  apply (on_slice_app op (L0 ++ L1) L2 L3); [|lia].
  rewrite length_app. lia.
Qed.

Lemma on_slice_lane3 (op : list F → list F) :
  on_slice (3 * n) n op (L0 ++ L1 ++ L2 ++ L3) = L0 ++ L1 ++ L2 ++ op L3.
Proof.
  unfold on_slice. rewrite slice_lane3. unfold slice_put.
  rewrite (drop_ge _ (3 * n + n)) by (rewrite !length_app; lia).
  rewrite app_nil_r.
  rewrite (app_assoc L1 L2), (app_assoc L0 (L1 ++ L2)).
  rewrite take_app_length' by (rewrite !length_app; lia).
  rewrite <- !app_assoc. reflexivity.
Qed.

End Lanes.

Lemma lstm_gates_lanes (hunits : nat) W U b x (h : list F) :
  slice 0 hunits (lstm_gates hunits W U b x h) = map (gate_i hunits W U b x h) (seq 0 hunits) ∧
  slice hunits hunits (lstm_gates hunits W U b x h) = map (gate_f hunits W U b x h) (seq 0 hunits) ∧
  slice (2 * hunits) hunits (lstm_gates hunits W U b x h) = map (gate_c hunits W U b x h) (seq 0 hunits) ∧
  slice (3 * hunits) hunits (lstm_gates hunits W U b x h) = map (gate_o hunits W U b x h) (seq 0 hunits).
Proof.
  unfold lstm_gates. repeat split.
  - change 0 with (0 * hunits) at 1. apply slice_lane0; apply length_map_seq.
  - replace hunits with (1 * hunits) at 1 by lia. apply slice_lane1; apply length_map_seq.
  - apply slice_lane2; apply length_map_seq.
  - apply slice_lane3; apply length_map_seq.
Qed.

Lemma length_lstm_gates (hunits : nat) W U b x (h : list F) :
  length (lstm_gates hunits W U b x h) = 4 * hunits.
Proof. unfold lstm_gates. rewrite !length_app, !length_map_seq. lia. Qed.

(** The buffers [compute] leaves, entry by entry. *)
Lemma compute_eq (hunits : nat) (W U : ReadArray2D) (b x : ReadArray1D)
    (h c ifco : list F) :
  length h = hunits → length c = hunits → length ifco = 4 * hunits →
  d1 x = d1_2 W → d1_2 U = hunits →
  compute hunits W U b x h c ifco =
  (fst (lstm_step hunits W U b x (h, c)),
   snd (lstm_step hunits W U b x (h, c)),
   lstm_gates hunits W U b x h).
Proof.
  intros Hh Hc Hifco Hx HU. unfold compute.
  rewrite (compute_preactivation (4 * hunits)) by (done || lia).
  rewrite map_seq_lanes.
  set (p := preactivation W U b x h).
  rewrite on_slice_lane0, sigmoid_map_seq by apply length_map_seq.
  rewrite on_slice_lane1, sigmoid_map_seq by apply length_map_seq.
  rewrite on_slice_lane2, tanh_map_seq by apply length_map_seq.
  rewrite on_slice_lane3, sigmoid_map_seq by apply length_map_seq.
  change (map (λ i, logistic (p (0 * hunits + i))) (seq 0 hunits)) with
    (map (gate_i hunits W U b x h) (seq 0 hunits)).
  change (map (λ i, logistic (p (1 * hunits + i))) (seq 0 hunits)) with
    (map (gate_f hunits W U b x h) (seq 0 hunits)).
  change (map (λ i, ftanh (p (2 * hunits + i))) (seq 0 hunits)) with
    (map (gate_c hunits W U b x h) (seq 0 hunits)).
  change (map (λ i, logistic (p (3 * hunits + i))) (seq 0 hunits)) with
    (map (gate_o hunits W U b x h) (seq 0 hunits)).
  fold (lstm_gates hunits W U b x h).
  destruct (lstm_gates_lanes hunits W U b x h) as (-> & -> & -> & ->).
  assert (addHadamardProduct
            (Array1D_read (map (gate_i hunits W U b x h) (seq 0 hunits)))
            (Array1D_read (map (gate_c hunits W U b x h) (seq 0 hunits)))
            (hadamardProduct
               (Array1D_read (map (gate_f hunits W U b x h) (seq 0 hunits))) c) =
          map (cell_next hunits W U b x h c) (seq 0 hunits)) as ->.
  { rewrite addHadamardProduct_eq, hadamardProduct_eq, length_map_seq, Hc.
    apply map_seq_ext. intros i Hi. simpl.
    rewrite !rd_map_seq by done. reflexivity. }
  assert (hadamardProduct
            (Array1D_read (map (gate_o hunits W U b x h) (seq 0 hunits)))
            (tanh_of (map (cell_next hunits W U b x h c) (seq 0 hunits)) h) =
          map (hidden_next hunits W U b x h c) (seq 0 hunits)) as ->.
  { rewrite hadamardProduct_eq, tanh_of_eq, length_map_seq, Hh.
    apply map_seq_ext. intros i Hi. simpl.
    rewrite !rd_map_seq by done. reflexivity. }
  reflexivity.
Qed.

Lemma length_lstm_step (hunits : nat) W U b x (hc : list F * list F) :
  length (fst (lstm_step hunits W U b x hc)) = hunits ∧
  length (snd (lstm_step hunits W U b x hc)) = hunits.
Proof. unfold lstm_step. simpl. rewrite !length_map_seq. done. Qed.

Lemma rd_lstm_gates (hunits : nat) W U b x (h : list F) (i : nat) :
  i < hunits →
  rd (lstm_gates hunits W U b x h) i = gate_i hunits W U b x h i ∧
  rd (lstm_gates hunits W U b x h) (hunits + i) = gate_f hunits W U b x h i ∧
  rd (lstm_gates hunits W U b x h) (2 * hunits + i) = gate_c hunits W U b x h i ∧
  rd (lstm_gates hunits W U b x h) (3 * hunits + i) = gate_o hunits W U b x h i.
Proof.
  intros Hi.
  destruct (lstm_gates_lanes hunits W U b x h) as (E0 & E1 & E2 & E3).
  repeat split.
  - rewrite <- (rd_map_seq0 (gate_i hunits W U b x h) hunits i Hi), <- E0.
    symmetry. apply (rd_slice _ 0 hunits i Hi).
  - rewrite <- (rd_map_seq0 (gate_f hunits W U b x h) hunits i Hi), <- E1.
    symmetry. apply (rd_slice _ hunits hunits i Hi).
  - rewrite <- (rd_map_seq0 (gate_c hunits W U b x h) hunits i Hi), <- E2.
    symmetry. apply (rd_slice _ (2 * hunits) hunits i Hi).
  - rewrite <- (rd_map_seq0 (gate_o hunits W U b x h) hunits i Hi), <- E3.
    symmetry. apply (rd_slice _ (3 * hunits) hunits i Hi).
Qed.

(** C6. On buffers of the stated shapes one call of [compute] is one step
    of the forget-gated LSTM: the scratch buffer ends as the four lanes
    [sigmoid(I)], [sigmoid(F)], [tanh(C~)], [sigmoid(O)] of
    [b + x.W + h.U]; the cell state becomes [c * F + I * C~]; and the
    hidden state becomes [tanh(c) * O] for that new cell state. *)
Theorem compute_is_forget_gated_step (E hunits : nat) (W U : ReadArray2D)
    (b x : ReadArray1D) (h c ifco : list F) :
  d1_2 W = E → d2 W = 4 * hunits → d1_2 U = hunits → d2 U = 4 * hunits →
  d1 b = 4 * hunits → d1 x = E →
  length h = hunits → length c = hunits → length ifco = 4 * hunits →
  let r := compute hunits W U b x h c ifco in
  let h' := r.1.1 in
  let c' := r.1.2 in
  let ifco' := r.2 in
  (h', c') = lstm_step hunits W U b x (h, c) ∧
  ifco' = lstm_gates hunits W U b x h ∧
  length h' = hunits ∧ length c' = hunits ∧ length ifco' = 4 * hunits ∧
  ∀ i, i < hunits →
    rd ifco' i = logistic (preactivation W U b x h i) ∧
    rd ifco' (hunits + i) = logistic (preactivation W U b x h (hunits + i)) ∧
    rd ifco' (2 * hunits + i) = ftanh (preactivation W U b x h (2 * hunits + i)) ∧
    rd ifco' (3 * hunits + i) = logistic (preactivation W U b x h (3 * hunits + i)) ∧
    rd c' i = fadd (fmul (rd c i) (rd ifco' (hunits + i)))
                   (fmul (rd ifco' i) (rd ifco' (2 * hunits + i))) ∧
    rd h' i = fmul (ftanh (rd c' i)) (rd ifco' (3 * hunits + i)).
Proof.
  intros HW1 HW2 HU1 HU2 Hb Hx Hh Hc Hifco r h' c' ifco'.
  subst h' c' ifco' r.
  rewrite compute_eq by (done || congruence). cbn [fst snd].
  destruct (length_lstm_step hunits W U b x (h, c)) as [Hl1 Hl2].
  split; [unfold lstm_step; reflexivity|]. split; [reflexivity|].
  split; [exact Hl1|]. split; [exact Hl2|]. split; [apply length_lstm_gates|].
  intros i Hi.
  destruct (rd_lstm_gates hunits W U b x h i Hi) as (G0 & G1 & G2 & G3).
  rewrite G0, G1, G2, G3. unfold lstm_step. cbn [fst snd].
  rewrite !rd_map_seq0 by done.
  repeat split. unfold gate_f. do 2 f_equal. lia.
Qed.

(** With exact arithmetic (an associative sum with right unit [fzero]) the
    accumulation is the start value plus the dot product. *)
Lemma dot_acc_exact (acc : F) (n : nat) (v m : nat → F) :
  (∀ a b c, fadd (fadd a b) c = fadd a (fadd b c)) →
  (∀ a, fadd a fzero = a) →
  dot_acc acc n v m = fadd acc (dot_acc fzero n v m).
Proof.
  intros Hassoc Hunit. induction n as [|n IH].
  - unfold dot_acc. simpl. symmetry. apply Hunit.
  - unfold dot_acc in *. rewrite seq_S, !fold_left_app. simpl.
    rewrite IH. apply Hassoc.
Qed.

End Cell.

(** ** The engine *)

Section BreakWord.
Context `{Scalar}.

Lemma shapes_ok_new (model : lstm_data) : shapes_ok (LSTMData_new model).
Proof. unfold shapes_ok. simpl. done. Qed.

Lemma vectorize_lookup (fData : LSTMData) (text : Z → Z) (startPos : Z) (n i : nat) :
  i < n →
  vectorize fData text startPos n !! i =
  Some (mapping (model fData) (text (startPos + Z.of_nat i)%Z)).
Proof.
  intros Hi. unfold vectorize.
  assert (length (for_range 0 n (λ i indices,
            <[i := mapping (model fData) (text (startPos + Z.of_nat i)%Z)]> indices)
            (replicate n 0%Z)) = n ∧
          ∀ j, j < n →
            for_range 0 n (λ i indices,
              <[i := mapping (model fData) (text (startPos + Z.of_nat i)%Z)]> indices)
              (replicate n 0%Z) !! j =
            Some (mapping (model fData) (text (startPos + Z.of_nat j)%Z))) as [_ Hall].
  { apply (for_range_ind (λ k (t : list Z), length t = n ∧
      ∀ j, j < k → t !! j = Some (mapping (model fData) (text (startPos + Z.of_nat j)%Z))));
      [lia| |].
    - split; [apply length_replicate|intros; lia].
    - intros k t Hk [Hlen Hlt]. split; [rewrite length_insert; done|].
      intros j Hj. destruct (decide (j = k)) as [->|Hne].
      + apply list_lookup_insert_eq. lia.
      + rewrite list_lookup_insert_ne by done. apply Hlt. lia. }
  apply Hall, Hi.
Qed.

Lemma embedding_row_vectorize (fData : LSTMData) (text : Z → Z) (startPos : Z) (n i : nat) :
  i < n →
  embedding_row fData (vectorize fData text startPos n) i =
  ref_embedding fData text startPos i.
Proof.
  intros Hi. unfold embedding_row, ref_embedding.
  rewrite vectorize_lookup by done. reflexivity.
Qed.

Lemma length_forward_state (fData : LSTMData) (text : Z → Z) (startPos : Z) (i : nat) :
  length (fst (forward_state fData text startPos i)) = ca2_d1 (fForwardU fData) ∧
  length (snd (forward_state fData text startPos i)) = ca2_d1 (fForwardU fData).
Proof. destruct i; apply length_lstm_step. Qed.

Lemma length_backward_state (fData : LSTMData) (text : Z → Z) (startPos : Z) (n i : nat) :
  length (fst (backward_state fData text startPos n i)) = ca2_d1 (fForwardU fData) ∧
  length (snd (backward_state fData text startPos n i)) = ca2_d1 (fForwardU fData).
Proof.
  unfold backward_state. destruct (n - 1 - i); apply length_lstm_step.
Qed.

Lemma backward_state_unfold (fData : LSTMData) (text : Z → Z) (startPos : Z) (n i : nat) :
  backward_state fData text startPos n i =
  lstm_step (ca2_d1 (fForwardU fData))
    (ConstArray2D_read (fBackwardW fData)) (ConstArray2D_read (fBackwardU fData))
    (ConstArray1D_read (fBackwardB fData)) (ref_embedding fData text startPos i)
    match n - 1 - i with
    | 0 => zero_state fData
    | S k' => backward_state_from fData text startPos k' (S i)
    end.
Proof. unfold backward_state. destruct (n - 1 - i); reflexivity. Qed.

Lemma forward_state_unfold (fData : LSTMData) (text : Z → Z) (startPos : Z) (i : nat) :
  forward_state fData text startPos i =
  lstm_step (ca2_d1 (fForwardU fData))
    (ConstArray2D_read (fForwardW fData)) (ConstArray2D_read (fForwardU fData))
    (ConstArray1D_read (fForwardB fData)) (ref_embedding fData text startPos i)
    match i with
    | 0 => zero_state fData
    | S j => forward_state fData text startPos j
    end.
Proof. destruct i; reflexivity. Qed.

(** A window that already has the right length is what [assign] copies. *)
Lemma assign_read (a this : list F) :
  length a = length this → assign (Array1D_read a) this = a.
Proof.
  intros Hlen. rewrite assign_eq. symmetry.
  apply map_seq_ext_length; [done|]. intros. reflexivity.
Qed.

(** The backward loop fills row [j] of [hBackward] with the reference
    backward hidden state at [j]. *)
Lemma backward_pass_rows (fData : LSTMData) (text : Z → Z) (startPos : Z) (n : nat) :
  shapes_ok fData →
  let hunits := ca2_d1 (fForwardU fData) in
  let st := backward_pass fData (vectorize fData text startPos n) n hunits
              (Array2D_new n hunits, Array1D_new hunits, Array1D_new (4 * hunits)) in
  rows_ok st.1.1 ∧ a2_d1 st.1.1 = n ∧ a2_d2 st.1.1 = hunits ∧
  (∀ j, j < n → Array2D_row st.1.1 j = fst (backward_state fData text startPos n j)) ∧
  length st.1.2 = hunits ∧ length st.2 = 4 * hunits.
Proof.
  intros (HFW & HBW & HBU) hunits. subst hunits. simpl.
  set (hunits := ca2_d1 (fForwardU fData)) in *.
  pose (P := λ (i : nat) (st : Array2D * list F * list F),
    rows_ok st.1.1 ∧ a2_d1 st.1.1 = n ∧ a2_d2 st.1.1 = hunits ∧
    (∀ j, i ≤ j < n → Array2D_row st.1.1 j = fst (backward_state fData text startPos n j)) ∧
    (∀ j, j < i → Array2D_row st.1.1 j = replicate hunits fzero) ∧
    length st.1.2 = hunits ∧ length st.2 = 4 * hunits ∧
    st.1.2 = (if decide (i = n) then replicate hunits fzero
              else snd (backward_state fData text startPos n i))).
  assert (P 0 (backward_pass fData (vectorize fData text startPos n) n hunits
                 (Array2D_new n hunits, Array1D_new hunits, Array1D_new (4 * hunits))))
    as (Hok & Hd1 & Hd2 & Hrows & _ & Hc & Hifco & _).
  { unfold backward_pass. apply (for_down_ind P).
    - unfold P. simpl. split; [apply rows_ok_new|]. split; [done|]. split; [done|].
      split; [intros; lia|]. split; [intros; apply Array2D_row_new; lia|].
      unfold Array1D_new. rewrite !length_replicate.
      split; [done|]. split; [done|]. rewrite decide_True; done.
    - intros i [[hB c] ifco] Hi (Hok & Hd1 & Hd2 & Hrows & Hzero & Hc & Hifco & Hcv).
      simpl in Hok, Hd1, Hd2, Hrows, Hzero, Hc, Hifco, Hcv.
      rewrite embedding_row_vectorize by done.
      set (hRow := if decide (i ≠ n - 1)
                   then assign (Array1D_read (Array2D_row hB (i + 1))) (Array2D_row hB i)
                   else Array2D_row hB i).
      assert ((hRow, c) = match n - 1 - i with
                          | 0 => zero_state fData
                          | S k' => backward_state_from fData text startPos k' (S i)
                          end) as Hprev.
      { subst hRow. destruct (decide (i ≠ n - 1)) as [Hne|Heq].
        - destruct (n - 1 - i) as [|k'] eqn:Hk; [lia|].
          rewrite assign_read.
          + rewrite (Hrows (i + 1)) by lia. rewrite decide_False in Hcv by lia.
            rewrite Hcv. unfold backward_state.
            replace (n - 1 - (i + 1)) with k' by lia.
            replace (n - 1 - S i) with k' by lia.
            replace (i + 1) with (S i) by lia.
            destruct (backward_state_from fData text startPos k' (S i)); reflexivity.
          + rewrite !length_Array2D_row by (done || lia). reflexivity.
        - assert (i = n - 1) as Hi' by (destruct (decide (i = n - 1)); [done|contradiction]).
          replace (n - 1 - i) with 0 by lia.
          rewrite (Hzero i) by lia. rewrite decide_True in Hcv by lia.
          rewrite Hcv. reflexivity. }
      assert (length hRow = hunits ∧ length c = hunits) as [HhRow _].
      { split; [|done]. subst hRow. destruct (decide (i ≠ n - 1)).
        - rewrite assign_eq, length_map_seq, length_Array2D_row by (done || lia). done.
        - rewrite length_Array2D_row by (done || lia). done. }
      rewrite compute_eq; [|done|done|done|symmetry; exact HBW|exact HBU].
      rewrite Hprev. unfold hunits at 1 2. rewrite <- backward_state_unfold.
      destruct (length_backward_state fData text startPos n i) as [Hl1 Hl2].
      unfold P. simpl.
      split; [apply rows_ok_put; (done || lia)|]. split; [done|]. split; [done|].
      split.
      { intros j Hj. destruct (decide (j = i)) as [->|Hji].
        - apply Array2D_row_put_eq; (done || lia).
        - rewrite Array2D_row_put_ne by (done || lia). apply Hrows. lia. }
      split.
      { intros j Hj. rewrite Array2D_row_put_ne by (done || lia). apply Hzero. lia. }
      split; [done|]. split; [apply length_lstm_gates|].
      rewrite decide_False by lia. reflexivity. }
  repeat split; try done. intros j Hj. apply Hrows. lia.
Qed.

Lemma fbRow_update (hunits : nat) (fbRow hf hb : list F) :
  length fbRow = 2 * hunits → length hf = hunits → length hb = hunits →
  on_slice hunits hunits (assign (Array1D_read hb)) (slice_put 0 hunits hf fbRow) =
  hf ++ hb.
Proof.
  intros Hfb Hhf Hhb. unfold slice_put at 1. simpl.
  rewrite <- (app_nil_r (drop hunits fbRow)).
  rewrite on_slice_app; [|done|rewrite length_drop; lia].
  rewrite assign_read by (rewrite length_drop; lia).
  rewrite app_nil_r. reflexivity.
Qed.

Lemma emit_step (lab i : nat) (pos : Z) (log : list Z) :
  (if bool_decide (lab = BEGIN) || bool_decide (lab = SINGLE)
   then (if decide (i ≠ 0) then foundBreak pos log else log)
   else log) =
  log ++ (if decide (i ≠ 0 ∧ (lab = BEGIN ∨ lab = SINGLE)) then [pos] else []).
Proof.
  unfold foundBreak.
  destruct (decide (lab = BEGIN)) as [Hb|Hb], (decide (lab = SINGLE)) as [Hs|Hs],
           (decide (i ≠ 0)) as [Hi|Hi];
    rewrite ?(bool_decide_eq_true_2 _ Hb), ?(bool_decide_eq_false_2 _ Hb),
            ?(bool_decide_eq_true_2 _ Hs), ?(bool_decide_eq_false_2 _ Hs); simpl;
    (rewrite decide_True by tauto) || (rewrite decide_False by tauto);
    rewrite ?app_nil_r; reflexivity.
Qed.

(** The fused loop decodes, at each position, the label of the reference
    network, and reports the position when the contract asks for it. *)
Lemma forward_pass_log (fData : LSTMData) (text : Z → Z) (startPos : Z) (n : nat)
    (hBackward : Array2D) (ifco logp : list F) (log : list Z) :
  shapes_ok fData →
  let hunits := ca2_d1 (fForwardU fData) in
  rows_ok hBackward → a2_d1 hBackward = n → a2_d2 hBackward = hunits →
  (∀ j, j < n → Array2D_row hBackward j = fst (backward_state fData text startPos n j)) →
  length ifco = 4 * hunits → length logp = 4 →
  snd (forward_pass fData (vectorize fData text startPos n) n hunits startPos hBackward
         (Array1D_new (2 * hunits), replicate hunits fzero, ifco, logp, log)) =
  log ++ expected_breaks fData text startPos n.
Proof.
  intros (HFW & HBW & HBU) hunits Hok Hd1 Hd2 Hrows Hifco Hlogp.
  subst hunits. set (hunits := ca2_d1 (fForwardU fData)) in *.
  pose (wanted := λ i, i ≠ 0 ∧
          (label fData text startPos n i = BEGIN ∨ label fData text startPos n i = SINGLE)).
  pose (P := λ (i : nat) (st : list F * list F * list F * list F * list Z),
    length st.1.1.1.1 = 2 * hunits ∧ length st.1.1.1.2 = hunits ∧
    length st.1.1.2 = 4 * hunits ∧ length st.1.2 = 4 ∧
    (slice 0 hunits st.1.1.1.1, st.1.1.1.2) =
      match i with
      | 0 => zero_state fData
      | S j => forward_state fData text startPos j
      end ∧
    st.2 = log ++ map (λ i : nat, (startPos + Z.of_nat i)%Z) (filter wanted (seq 0 i))).
  assert (P n (forward_pass fData (vectorize fData text startPos n) n hunits startPos hBackward
                 (Array1D_new (2 * hunits), replicate hunits fzero, ifco, logp, log)))
    as (_ & _ & _ & _ & _ & Hlog).
  { unfold forward_pass. apply (for_range_ind P); [lia| |].
    - unfold P, Array1D_new. simpl. rewrite !length_replicate.
      repeat split; try done; try lia.
      + unfold zero_state. f_equal. fold hunits. unfold slice.
        rewrite drop_0, take_replicate. f_equal. lia.
      + rewrite app_nil_r. reflexivity.
    - intros i [[[[fbRow c] ifco'] logp'] lg] Hi (Hfb & Hc & Hifco' & Hlogp' & Hprev & Hlg).
      simpl in Hfb, Hc, Hifco', Hlogp', Hprev, Hlg.
      rewrite embedding_row_vectorize by lia.
      rewrite compute_eq;
        [|apply length_slice; lia|done|done|symmetry; exact HFW|reflexivity].
      rewrite Hprev.
      pose proof (forward_state_unfold fData text startPos i) as Hfs.
      fold hunits in Hfs. rewrite <- Hfs. clear Hfs.
      destruct (length_forward_state fData text startPos i) as [Hl1 Hl2].
      destruct (length_backward_state fData text startPos n i) as [Hl3 _].
      rewrite (Hrows i) by lia.
      rewrite fbRow_update by done.
      rewrite emit_step.
      assert (addDotProduct
                (Array1D_read ((forward_state fData text startPos i).1 ++
                               (backward_state fData text startPos n i).1))
                (ConstArray2D_read (fOutputW fData))
                (assign (ConstArray1D_read (fOutputB fData)) logp') =
              logits fData text startPos n i) as ->.
      { rewrite assign_eq, addDotProduct_eq, length_map_seq, Hlogp'.
        unfold logits. apply map_seq_ext. intros k Hk.
        rewrite rd_map_seq by done. simpl.
        rewrite length_app, Hl1, Hl3. f_equal. lia. }
      fold (label fData text startPos n i).
      unfold P. simpl. rewrite length_app, Hl1, Hl2, Hl3, length_lstm_gates.
      repeat split; try done; try lia.
      + unfold slice. rewrite drop_0, take_app_length' by done.
        destruct (forward_state fData text startPos i); reflexivity.
      + change (0 :: seq 1 i) with (seq 0 (S i)).
        rewrite Hlg, seq_S, filter_app, map_app, app_assoc. f_equal. simpl.
        rewrite filter_cons, filter_nil. unfold wanted.
        repeat case_decide; try reflexivity; tauto. }
  exact Hlog.
Qed.

(** What a successful call returns and reports. *)
Lemma breakWord_log (fData : LSTMData) (text : Z → Z) (startPos endPos : Z) (log : list Z) :
  shapes_ok fData → (endPos - startPos ≤ 2048)%Z →
  breakWord fData text startPos endPos log =
  (0%Z, log ++ expected_breaks fData text startPos (Z.to_nat (endPos - startPos))).
Proof.
  intros Hshape Hlen. unfold breakWord.
  destruct (Z.gtb_spec (endPos - startPos) 2048) as [Hgt|_]; [lia|].
  pose proof (backward_pass_rows fData text startPos (Z.to_nat (endPos - startPos)) Hshape)
    as Hback. simpl in Hback.
  destruct (backward_pass _ _ _ _ _) as [[hB c] ifco].
  simpl in Hback. destruct Hback as (Hok & Hd1 & Hd2 & Hrows & Hc & Hifco).
  pose proof (forward_pass_log fData text startPos (Z.to_nat (endPos - startPos))
                hB ifco (Array1D_new 4) log Hshape Hok Hd1 Hd2 Hrows) as Hfwd.
  simpl in Hfwd. unfold clear. rewrite Hc.
  destruct (forward_pass _ _ _ _ _ _ _) as [[[[fbRow c'] ifco'] logp'] lg].
  simpl in Hfwd. rewrite Hfwd; [reflexivity|lia|reflexivity].
Qed.

Lemma compute_c_length (hunits : nat) W U b x (h c ifco : list F) :
  length (compute hunits W U b x h c ifco).1.2 = length c.
Proof.
  unfold compute. simpl.
  rewrite addHadamardProduct_eq, hadamardProduct_eq, !length_map_seq. reflexivity.
Qed.

Lemma backward_pass_c_length (fData : LSTMData) (indices : list Z) (n hunits : nat)
    (hBackward : Array2D) (c ifco : list F) :
  length (backward_pass fData indices n hunits (hBackward, c, ifco)).1.2 = length c.
Proof.
  unfold backward_pass.
  apply (for_down_ind (λ _ (st : Array2D * list F * list F), length st.1.2 = length c));
    [reflexivity|].
  intros i [[hB c'] ifco'] Hi Hlen. simpl in Hlen.
  match goal with |- context [compute ?x1 ?x2 ?x3 ?x4 ?x5 ?x6 ?x7 ?x8] =>
    pose proof (compute_c_length x1 x2 x3 x4 x5 x6 x7 x8) as Hc;
    destruct (compute x1 x2 x3 x4 x5 x6 x7 x8) as [[hRow c''] ifco'']
  end.
  simpl in *. lia.
Qed.

Lemma expected_breaks_elem_of (fData : LSTMData) (text : Z → Z) (startPos : Z) (n : nat) (p : Z) :
  p ∈ expected_breaks fData text startPos n ↔
  ∃ i : nat, p = (startPos + Z.of_nat i)%Z ∧ 0 < i < n ∧
    (label fData text startPos n i = BEGIN ∨ label fData text startPos n i = SINGLE).
Proof.
  unfold expected_breaks. rewrite list_elem_of_fmap. split.
  - intros (i & -> & Hi). apply list_elem_of_filter in Hi as [[Hne Hlab] Hi].
    apply elem_of_seq in Hi. exists i. repeat split; try done; lia.
  - intros (i & -> & Hi & Hlab). exists i. split; [done|].
    apply list_elem_of_filter. split; [split; [lia|done]|]. apply elem_of_seq. lia.
Qed.

(** Positions selected from a range, in order, are strictly increasing. *)
Lemma selected_sorted (Q : nat → Prop) `{∀ i, Decision (Q i)} (startPos : Z) (n : nat) :
  StronglySorted Z.lt
    (map (λ i : nat, (startPos + Z.of_nat i)%Z) (filter Q (seq 0 n))).
Proof.
  induction n as [|n IH]; [constructor|].
  rewrite seq_S, filter_app, map_app. apply StronglySorted_app. split; [|split].
  - intros x1 x2 Hx1 Hx2. simpl in Hx2.
    change (map ?f ?l) with (f <$> l) in Hx1, Hx2.
    apply list_elem_of_fmap in Hx1 as (i & -> & Hi).
    apply list_elem_of_filter in Hi as [_ Hi]. apply elem_of_seq in Hi.
    apply list_elem_of_fmap in Hx2 as (j & -> & Hj).
    apply list_elem_of_filter in Hj as [_ Hj].
    apply list_elem_of_singleton in Hj as ->. lia.
  - exact IH.
  - simpl. rewrite filter_cons, filter_nil.
    case_decide; simpl; repeat constructor.
Qed.

Lemma expected_breaks_sorted (fData : LSTMData) (text : Z → Z) (startPos : Z) (n : nat) :
  StronglySorted Z.lt (expected_breaks fData text startPos n).
Proof. unfold expected_breaks. apply selected_sorted. Qed.

Lemma expected_breaks_bounds (fData : LSTMData) (text : Z → Z) (startPos : Z) (n : nat) :
  Forall (λ p, (startPos < p < startPos + Z.of_nat n)%Z)
         (expected_breaks fData text startPos n).
Proof.
  apply Forall_forall. intros p Hp.
  apply expected_breaks_elem_of in Hp as (i & -> & Hi & _). lia.
Qed.

(** C2. [breakWord] returns a nonzero value exactly when the range is
    longer than 2048 code points, and then it leaves the callback log as it
    was: no callback is invoked.  A range of 2049 is refused, one of 2048
    is accepted. *)
Theorem breakWord_length_cap (fData : LSTMData) (text : Z → Z) (startPos endPos : Z)
    (log : list Z) :
  (fst (breakWord fData text startPos endPos log) ≠ 0%Z ↔ (endPos - startPos > 2048)%Z) ∧
  (fst (breakWord fData text startPos endPos log) ≠ 0%Z →
     snd (breakWord fData text startPos endPos log) = log) ∧
  ((endPos - startPos = 2049)%Z →
     fst (breakWord fData text startPos endPos log) ≠ 0%Z ∧
     snd (breakWord fData text startPos endPos log) = log) ∧
  ((endPos - startPos = 2048)%Z →
     fst (breakWord fData text startPos endPos log) = 0%Z).
Proof.
  unfold breakWord.
  destruct (Z.gtb_spec (endPos - startPos) 2048) as [Hgt|Hle].
  - simpl. repeat split; intros; try done; lia.
  - destruct (backward_pass _ _ _ _ _) as [[hB c] ifco].
    destruct (forward_pass _ _ _ _ _ _ _) as [[[[fbRow c'] ifco'] logp'] lg].
    simpl. repeat split; intros; try done; lia.
Qed.

(** C4. A successful call reports, in order, exactly the positions
    [startPos + i] with [0 < i < L] whose decoded label (the argmax of the
    reference network's logits at [i]) is BEGIN or SINGLE; the start of
    the range is never reported. *)
Theorem breakWord_reports_labelled_positions (model : lstm_data) (text : Z → Z)
    (startPos endPos : Z) (log : list Z) :
  (endPos - startPos ≤ 2048)%Z →
  let fData := LSTMData_new model in
  let L := Z.to_nat (endPos - startPos) in
  breakWord fData text startPos endPos log =
    (0%Z, log ++ expected_breaks fData text startPos L) ∧
  (∀ p, p ∈ expected_breaks fData text startPos L ↔
        ∃ i : nat, p = (startPos + Z.of_nat i)%Z ∧ 0 < i < L ∧
          (maxIndex (logits fData text startPos L i) = BEGIN ∨
           maxIndex (logits fData text startPos L i) = SINGLE)) ∧
  startPos ∉ expected_breaks fData text startPos L.
Proof.
  intros Hlen fData L. split; [|split].
  - apply breakWord_log; [apply shapes_ok_new|done].
  - intros p. apply expected_breaks_elem_of.
  - intros Hin. apply expected_breaks_elem_of in Hin as (i & Hp & Hi & _). lia.
Qed.

(** C7. Sharing the cell-state buffer between the two passes, with its
    [clear()] in between, gives the same return value and the same
    callbacks as two buffers zeroed at allocation. *)
Theorem breakWord_shared_cell_buffer (fData : LSTMData) (text : Z → Z)
    (startPos endPos : Z) (log : list Z) :
  breakWord fData text startPos endPos log =
  breakWord_two_buffers fData text startPos endPos log.
Proof.
  unfold breakWord, breakWord_two_buffers.
  destruct (endPos - startPos >? 2048)%Z; [reflexivity|].
  match goal with |- context [backward_pass ?x1 ?x2 ?x3 ?x4 (?x5, ?x6, ?x7)] =>
    pose proof (backward_pass_c_length x1 x2 x3 x4 x5 x6 x7) as Hc;
    destruct (backward_pass x1 x2 x3 x4 (x5, x6, x7)) as [[hB c] ifco]
  end.
  simpl in Hc. unfold Array1D_new in Hc. rewrite length_replicate in Hc.
  unfold clear. rewrite Hc. reflexivity.
Qed.

End BreakWord.

(** ** The dispatcher *)

Section DispatcherFacts.
Context {Engine World : Type}.
Variables e_thai e_lao e_burmese e_khmer : Engine.
Variable engine_breakWord : Engine → (Z → Z) → Z → Z → World → Z * World.

Lemma fold_left_rel {A B X : Type} (R : A → B → Prop)
    (f : A → X → A) (g : B → X → B) (l : list X) (a : A) (b : B) :
  R a b → (∀ x a b, R a b → R (f a x) (g b x)) →
  R (fold_left f l a) (fold_left g l b).
Proof.
  intros Hab Hstep. revert a b Hab.
  induction l as [|x l IH]; intros a b Hab; simpl; [done|].
  apply IH, Hstep, Hab.
Qed.

(** Whatever the engine returns, the dispatcher returns 0. *)
Lemma BreakSALine_returns_zero (text : Z → Z) (rangeStart rangeEnd : Z) (w : World) :
  fst (BreakSALine e_thai e_lao e_burmese e_khmer engine_breakWord
         text rangeStart rangeEnd w) = 0%Z.
Proof.
  unfold BreakSALine. destruct (for_positions _ _ _ _) as [[s l] w']. reflexivity.
Qed.

Lemma recorded_engine (lang : SALang) :
  lang ≠ UNK → get_break_engine_by_lang THAI LAO BURMESE KHMER lang = lang.
Proof. destruct lang; done. Qed.

Lemma replay_snoc (engine_of : SALang → Engine) (text : Z → Z)
    (calls : list chunk) (ck : chunk) (w : World) :
  replay engine_of engine_breakWord text (calls ++ [ck]) w =
  snd (engine_breakWord (engine_of (fst (fst ck))) text (snd (fst ck)) (snd ck)
         (replay engine_of engine_breakWord text calls w)).
Proof. unfold replay. rewrite fold_left_app. reflexivity. Qed.

(** The world the dispatcher leaves is the world after the recorded
    calls, made in order on the engines the dispatcher selects. *)
Lemma BreakSALine_replay (text : Z → Z) (rangeStart rangeEnd : Z) (w : World) :
  snd (BreakSALine e_thai e_lao e_burmese e_khmer engine_breakWord
         text rangeStart rangeEnd w) =
  replay (get_break_engine_by_lang e_thai e_lao e_burmese e_khmer) engine_breakWord
    text (engine_calls text rangeStart rangeEnd) w.
Proof.
  unfold engine_calls, BreakSALine, for_positions.
  set (engine_of := get_break_engine_by_lang e_thai e_lao e_burmese e_khmer).
  pose (R := λ (a : Z * SALang * World) (b : Z * SALang * list chunk),
    a.1.1 = b.1.1 ∧ a.1.2 = b.1.2 ∧
    a.2 = replay engine_of engine_breakWord text b.2 w).
  assert (R (fold_left (λ s pos, BreakSALine_body e_thai e_lao e_burmese e_khmer
                                   engine_breakWord text pos s)
               (positions rangeStart rangeEnd) (rangeStart, UNK, w))
            (fold_left (λ s pos, BreakSALine_body THAI LAO BURMESE KHMER
                                   (recording_breakWord 0) text pos s)
               (positions rangeStart rangeEnd) (rangeStart, UNK, []))) as HR.
  { apply fold_left_rel; [done|].
    intros pos [[s1 l1] w1] [[s2 l2] calls] (Hs & Hl & Hw). simpl in Hs, Hl, Hw.
    subst s2 l2 w1. unfold BreakSALine_body, R.
    destruct (decide (classify_language (text pos) ≠ l1)); [|done].
    destruct (decide (l1 ≠ UNK)); [|done].
    simpl. rewrite replay_snoc, recorded_engine by done. done. }
  destruct (fold_left _ _ (rangeStart, UNK, w)) as [[s1 l1] w1].
  destruct (fold_left _ _ (rangeStart, UNK, [])) as [[s2 l2] calls].
  destruct HR as (Hs & Hl & Hw). simpl in Hs, Hl, Hw. subst s2 l2 w1.
  destruct (decide (s1 ≠ rangeEnd ∧ l1 ≠ UNK)) as [[_ Hl]|]; [|done].
  simpl. rewrite replay_snoc, recorded_engine by done. done.
Qed.

End DispatcherFacts.

(** ** The chunks of the walk *)

Lemma tiles_snoc (lo mid hi : Z) (cs : list chunk) (l : SALang) :
  tiles lo mid cs → (mid < hi)%Z → tiles lo hi (cs ++ [(l, mid, hi)]).
Proof.
  revert lo. induction cs as [|[[l' s] e] cs IH]; intros lo Ht Hlt; simpl in *.
  - subst. done.
  - destruct Ht as (-> & Hse & Ht). repeat split; [done|]. apply IH; done.
Qed.

Lemma tiles_le (lo hi : Z) (cs : list chunk) : tiles lo hi cs → (lo ≤ hi)%Z.
Proof.
  revert lo. induction cs as [|[[l s] e] cs IH]; intros lo Ht; simpl in *; [lia|].
  destruct Ht as (-> & Hse & Ht). apply IH in Ht. lia.
Qed.

Lemma tiles_positions (lo hi : Z) (cs : list chunk) :
  tiles lo hi cs → concat (map chunk_positions cs) = positions lo hi.
Proof.
  revert lo. induction cs as [|[[l s] e] cs IH]; intros lo Ht; simpl in *.
  - subst. rewrite positions_empty by lia. reflexivity.
  - destruct Ht as (-> & Hse & Ht). rewrite (IH _ Ht).
    unfold chunk_positions. simpl. symmetry. apply positions_app.
    apply tiles_le in Ht. lia.
Qed.

Lemma tiles_ordered (lo hi : Z) (cs : list chunk) :
  tiles lo hi cs → ∀ lo', (lo' ≤ lo)%Z → ordered lo' hi (supported cs).
Proof.
  revert lo. induction cs as [|[[l s] e] cs IH]; intros lo Ht lo' Hlo; simpl in *.
  - subst. done.
  - destruct Ht as (-> & Hse & Ht). unfold supported. rewrite filter_cons.
    case_decide; simpl.
    + repeat split; try done. apply (IH _ Ht). lia.
    + apply (IH _ Ht). lia.
Qed.

Lemma ordered_le (lo hi : Z) (cs : list chunk) : ordered lo hi cs → (lo ≤ hi)%Z.
Proof.
  revert lo. induction cs as [|[[l s] e] cs IH]; intros lo Hord; simpl in *; [lia|].
  destruct Hord as (H1 & H2 & H3). apply IH in H3. lia.
Qed.

Lemma ordered_bounds (lo hi : Z) (cs : list chunk) :
  ordered lo hi cs →
  Forall (λ ck : chunk, (lo ≤ snd (fst ck))%Z ∧ (snd (fst ck) < snd ck)%Z ∧ (snd ck ≤ hi)%Z) cs.
Proof.
  revert lo. induction cs as [|[[l s] e] cs IH]; intros lo Hord; simpl in *; [constructor|].
  destruct Hord as (H1 & H2 & H3). constructor.
  - simpl. apply ordered_le in H3. lia.
  - eapply Forall_impl; [apply (IH _ H3)|]. simpl. intros ck (A1 & A2 & A3). lia.
Qed.

Lemma NoDup_positions (lo hi : Z) : NoDup (positions lo hi).
Proof.
  unfold positions.
  assert (Inj (=) (=) (λ k : nat, (lo + Z.of_nat k)%Z)) by (intros a b Hab; lia).
  apply (NoDup_fmap_2 (λ k : nat, (lo + Z.of_nat k)%Z)), NoDup_seq.
Qed.

Lemma observe_fst (text : Z → Z) (l : list Z) (st : Z * SALang * list chunk)
    (formed : list chunk) :
  fst (fold_left (λ s pos, observe_chunks text pos s) l (st, formed)) =
  fold_left (λ s pos, BreakSALine_body THAI LAO BURMESE KHMER
                        (recording_breakWord 0) text pos s) l st.
Proof.
  revert st formed. induction l as [|pos l IH]; intros [[s lg] calls] formed; simpl; [done|].
  apply IH.
Qed.

(** What the walk has established when it reaches [pos]. *)
Lemma observe_invariant (text : Z → Z) (rangeStart rangeEnd : Z) :
  (rangeStart ≤ rangeEnd)%Z →
  let st := for_positions rangeStart rangeEnd (observe_chunks text)
              ((rangeStart, UNK, []), []) in
  (rangeStart ≤ st.1.1.1 ≤ rangeEnd)%Z ∧
  ((st.1.1.1 < rangeEnd)%Z ∨ (rangeEnd = rangeStart ∧ st.1.1.2 = UNK)) ∧
  tiles rangeStart st.1.1.1 st.2 ∧
  homogeneous text (st.1.1.2, st.1.1.1, rangeEnd) ∧
  Forall (homogeneous text) st.2 ∧
  Forall (ends_at_change text) st.2 ∧
  st.1.2 = supported st.2.
Proof.
  intros Hle. simpl.
  apply (for_positions_ind (λ pos (st : (Z * SALang * list chunk) * list chunk),
    (rangeStart ≤ st.1.1.1 ≤ pos)%Z ∧
    ((st.1.1.1 < pos)%Z ∨ (pos = rangeStart ∧ st.1.1.2 = UNK)) ∧
    tiles rangeStart st.1.1.1 st.2 ∧
    homogeneous text (st.1.1.2, st.1.1.1, pos) ∧
    Forall (homogeneous text) st.2 ∧
    Forall (ends_at_change text) st.2 ∧
    st.1.2 = supported st.2)); [done| |].
  - simpl. repeat split; try done; try lia.
    + right. done.
    + intros p Hp. simpl in Hp. lia.
  - intros pos [[[start lang] calls] formed] Hpos
      (Hst & Hne & Htiles & Hhom & Hfh & Hfe & Hcalls).
    simpl in Hst, Hne, Htiles, Hhom, Hfh, Hfe, Hcalls.
    unfold observe_chunks, BreakSALine_body.
    destruct (decide (classify_language (text pos) ≠ lang)) as [Hchg|Hsame].
    + cbn [fst snd].
      assert (homogeneous text (classify_language (text pos), pos, (pos + 1)%Z)) as Hnew.
      { intros p Hp. simpl in *. replace p with pos by lia. done. }
      destruct Hne as [Hlt|[-> ->]].
      * rewrite decide_True by (split; [done|lia]).
        split; [lia|]. split; [left; lia|].
        split; [apply tiles_snoc; done|]. split; [done|].
        split; [apply Forall_app; split; [done|repeat constructor; done]|].
        split; [apply Forall_app; split; [done|repeat constructor; done]|].
        unfold supported. rewrite filter_app, filter_cons, filter_nil. simpl.
        destruct (decide (lang ≠ UNK)) as [Hl|Hl].
        -- simpl. rewrite recorded_engine by done. rewrite Hcalls. reflexivity.
        -- rewrite app_nil_r. exact Hcalls.
      * assert (start = rangeStart) as -> by lia.
        rewrite decide_False by (intros [_ ?]; done).
        rewrite (decide_False (P := UNK ≠ UNK)) by (intros Hn; apply Hn; reflexivity).
        split; [lia|]. split; [left; lia|]. repeat split; done.
    + cbn [fst snd]. rewrite decide_False by (intros [? _]; done).
      split; [lia|]. split; [left; lia|]. split; [done|]. split; [|done].
      intros p Hp. simpl in *.
      destruct (decide (p = pos)) as [->|Hp'].
      * destruct (decide (classify_language (text pos) = lang)); [done|contradiction].
      * apply Hhom. simpl. lia.
Qed.

Lemma engine_calls_observed (text : Z → Z) (rangeStart rangeEnd : Z) :
  engine_calls text rangeStart rangeEnd =
  let st := for_positions rangeStart rangeEnd (observe_chunks text)
              ((rangeStart, UNK, []), []) in
  if decide (st.1.1.1 ≠ rangeEnd ∧ st.1.1.2 ≠ UNK)
  then st.1.2 ++ [(st.1.1.2, st.1.1.1, rangeEnd)]
  else st.1.2.
Proof.
  unfold engine_calls, BreakSALine, for_positions. simpl.
  rewrite <- (observe_fst text _ _ []).
  destruct (fold_left _ _ _) as [[[start lang] calls] formed]. simpl.
  destruct (decide (start ≠ rangeEnd ∧ lang ≠ UNK)) as [[_ Hl]|]; [|done].
  simpl. unfold recording_breakWord. simpl. rewrite recorded_engine by done. done.
Qed.

Lemma chunks_formed_facts (text : Z → Z) (rangeStart rangeEnd : Z) :
  (rangeStart ≤ rangeEnd)%Z →
  tiles rangeStart rangeEnd (chunks_formed text rangeStart rangeEnd) ∧
  Forall (homogeneous text) (chunks_formed text rangeStart rangeEnd) ∧
  Forall (λ ck : chunk, (snd ck < rangeEnd)%Z → ends_at_change text ck)
         (chunks_formed text rangeStart rangeEnd) ∧
  engine_calls text rangeStart rangeEnd =
    supported (chunks_formed text rangeStart rangeEnd).
Proof.
  intros Hle. rewrite engine_calls_observed. unfold chunks_formed.
  pose proof (observe_invariant text rangeStart rangeEnd Hle) as Hinv.
  simpl in Hinv |- *.
  destruct (for_positions _ _ _ _) as [[[start lang] calls] formed].
  simpl in Hinv |- *.
  destruct Hinv as (Hst & Hne & Htiles & Hhom & Hfh & Hfe & Hcalls).
  assert (Forall (λ ck : chunk, (snd ck < rangeEnd)%Z → ends_at_change text ck) formed)
    as Hfe'.
  { eapply Forall_impl; [exact Hfe|]. intros ck Hck _. exact Hck. }
  destruct (decide (start ≠ rangeEnd)) as [Hs|Hs].
  - split; [apply tiles_snoc; [done|lia]|].
    split; [apply Forall_app; split; [done|repeat constructor; done]|].
    split.
    { apply Forall_app. split; [done|]. repeat constructor. simpl. lia. }
    unfold supported. rewrite filter_app, filter_cons, filter_nil. simpl.
    destruct (decide (lang ≠ UNK)) as [Hl|Hl].
    + rewrite decide_True by done. rewrite Hcalls. reflexivity.
    + rewrite decide_False by (intros [_ ?]; done). rewrite app_nil_r. exact Hcalls.
  - assert (start = rangeEnd) as -> by (destruct (decide (start = rangeEnd)); [done|contradiction]).
    rewrite decide_False by (intros [? _]; done).
    repeat split; done.
Qed.

Lemma chunks_formed_reversed (text : Z → Z) (rangeStart rangeEnd : Z) :
  (rangeEnd < rangeStart)%Z →
  chunks_formed text rangeStart rangeEnd = [(UNK, rangeStart, rangeEnd)] ∧
  engine_calls text rangeStart rangeEnd = [].
Proof.
  intros Hlt. rewrite engine_calls_observed.
  unfold chunks_formed, for_positions. rewrite positions_empty by lia. simpl.
  rewrite decide_True by lia.
  rewrite decide_False by (intros [_ Hn]; apply Hn; reflexivity). done.
Qed.

Lemma tiles_bounds (lo hi : Z) (cs : list chunk) (ck : chunk) :
  tiles lo hi cs → ck ∈ cs → (lo ≤ snd (fst ck))%Z ∧ (snd ck ≤ hi)%Z.
Proof.
  revert lo. induction cs as [|[[l s] e] cs IH]; intros lo Ht Hin; simpl in *.
  - apply elem_of_nil in Hin. done.
  - destruct Ht as (-> & Hse & Ht). pose proof (tiles_le _ _ _ Ht) as Hle.
    apply elem_of_cons in Hin as [->|Hin]; simpl; [lia|].
    destruct (IH _ Ht Hin). lia.
Qed.

(** Two chunks of a tiling are the same chunk or lie apart. *)
Lemma tiles_apart (lo hi : Z) (cs : list chunk) (ck1 ck2 : chunk) :
  tiles lo hi cs → ck1 ∈ cs → ck2 ∈ cs →
  ck1 = ck2 ∨ (snd ck1 ≤ snd (fst ck2))%Z ∨ (snd ck2 ≤ snd (fst ck1))%Z.
Proof.
  revert lo. induction cs as [|[[l s] e] cs IH]; intros lo Ht H1 H2; simpl in *.
  - apply elem_of_nil in H1. done.
  - destruct Ht as (-> & Hse & Ht).
    apply elem_of_cons in H1 as [->|H1]; apply elem_of_cons in H2 as [->|H2].
    + left. done.
    + right. left. simpl. destruct (tiles_bounds _ _ _ _ Ht H2). lia.
    + right. right. simpl. destruct (tiles_bounds _ _ _ _ Ht H1). lia.
    + apply (IH _ Ht H1 H2).
Qed.

(** C10. Every call the dispatcher makes to an engine is on a non-empty
    chunk inside the range, every position of which has the supported
    script whose engine is called, and the position that ends the chunk,
    when it is inside the range, has another script.  The calls are those
    of [engine_calls] whatever engine the dispatcher is linked against. *)
Theorem engine_calls_on_script_runs (text : Z → Z) (rangeStart rangeEnd : Z) :
  Forall (λ ck : chunk,
            let lang := fst (fst ck) in
            let chunkStart := snd (fst ck) in
            let chunkEnd := snd ck in
            (chunkStart < chunkEnd)%Z ∧
            (rangeStart ≤ chunkStart)%Z ∧ (chunkEnd ≤ rangeEnd)%Z ∧
            lang ≠ UNK ∧
            (∀ p, (chunkStart ≤ p < chunkEnd)%Z → classify_language (text p) = lang) ∧
            ((chunkEnd < rangeEnd)%Z → classify_language (text chunkEnd) ≠ lang))
         (engine_calls text rangeStart rangeEnd) ∧
  ∀ (Engine World : Type) (e_thai e_lao e_burmese e_khmer : Engine)
    (engine_breakWord : Engine → (Z → Z) → Z → Z → World → Z * World) (w : World),
    snd (BreakSALine e_thai e_lao e_burmese e_khmer engine_breakWord
           text rangeStart rangeEnd w) =
    replay (get_break_engine_by_lang e_thai e_lao e_burmese e_khmer) engine_breakWord
      text (engine_calls text rangeStart rangeEnd) w.
Proof.
  split; [|intros; apply BreakSALine_replay].
  destruct (decide (rangeStart ≤ rangeEnd)%Z) as [Hle|Hgt].
  - destruct (chunks_formed_facts text rangeStart rangeEnd Hle) as (Ht & Hh & He & ->).
    pose proof (tiles_ordered _ _ _ Ht rangeStart ltac:(lia)) as Hord.
    assert (Forall (homogeneous text) (supported (chunks_formed text rangeStart rangeEnd)) ∧
            Forall (λ ck : chunk, (snd ck < rangeEnd)%Z → ends_at_change text ck)
                   (supported (chunks_formed text rangeStart rangeEnd)) ∧
            Forall (λ ck : chunk, fst (fst ck) ≠ UNK)
                   (supported (chunks_formed text rangeStart rangeEnd))) as (Hh' & He' & Hl').
    { unfold supported. repeat split.
      - apply Forall_forall. intros ck Hck. apply list_elem_of_filter in Hck as [_ Hck].
        eapply Forall_forall in Hh; [exact Hh|done].
      - apply Forall_forall. intros ck Hck. apply list_elem_of_filter in Hck as [_ Hck].
        eapply (proj1 (Forall_forall _ _) He); done.
      - apply Forall_forall. intros ck Hck. apply list_elem_of_filter in Hck as [Hck _].
        done. }
    apply ordered_bounds in Hord.
    apply Forall_forall. intros ck Hck.
    pose proof (proj1 (Forall_forall _ _) Hord ck Hck) as (B1 & B2 & B3).
    pose proof (proj1 (Forall_forall _ _) Hh' ck Hck) as B4.
    pose proof (proj1 (Forall_forall _ _) He' ck Hck) as B5.
    pose proof (proj1 (Forall_forall _ _) Hl' ck Hck) as B6.
    simpl. repeat split; done.
  - destruct (chunks_formed_reversed text rangeStart rangeEnd) as [_ ->]; [lia|].
    constructor.
Qed.

(** ** The dispatcher linked against the LSTM engine *)

Section Linked.
Context `{Scalar}.

(** A call appends its reports to the log; they are strictly increasing
    and strictly inside the range of the call. *)
Lemma breakWord_appends (fData : LSTMData) (text : Z → Z) (startPos endPos : Z) (log : list Z) :
  shapes_ok fData →
  snd (breakWord fData text startPos endPos log) =
    log ++ snd (breakWord fData text startPos endPos []) ∧
  StronglySorted Z.lt (snd (breakWord fData text startPos endPos [])) ∧
  Forall (λ p, (startPos < p < endPos)%Z) (snd (breakWord fData text startPos endPos [])).
Proof.
  intros Hshape. destruct (decide (endPos - startPos ≤ 2048)%Z) as [Hle|Hgt].
  - rewrite !breakWord_log by done. simpl. split; [done|].
    split; [apply expected_breaks_sorted|].
    eapply Forall_impl; [apply expected_breaks_bounds|]. simpl. intros p Hp. lia.
  - unfold breakWord.
    destruct (Z.gtb_spec (endPos - startPos) 2048) as [_|Hle]; [|lia].
    simpl. rewrite app_nil_r. repeat split; constructor.
Qed.

Lemma replay_breakWord (engine_of : SALang → LSTMData) (text : Z → Z)
    (calls : list chunk) (lo hi : Z) (log : list Z) :
  (∀ lang, shapes_ok (engine_of lang)) →
  ordered lo hi calls →
  replay engine_of breakWord text calls log =
    log ++ concat (map (λ ck : chunk,
                          snd (breakWord (engine_of (fst (fst ck))) text
                                 (snd (fst ck)) (snd ck) [])) calls) ∧
  StronglySorted Z.lt
    (concat (map (λ ck : chunk,
                    snd (breakWord (engine_of (fst (fst ck))) text
                           (snd (fst ck)) (snd ck) [])) calls)) ∧
  Forall (λ p, (lo < p < hi)%Z)
    (concat (map (λ ck : chunk,
                    snd (breakWord (engine_of (fst (fst ck))) text
                           (snd (fst ck)) (snd ck) [])) calls)).
Proof.
  intros Hshape. revert lo log.
  induction calls as [|[[l s] e] calls IH]; intros lo log Hord; simpl in *.
  - rewrite app_nil_r. repeat split; constructor.
  - destruct Hord as (Hlo & Hse & Hord).
    destruct (breakWord_appends (engine_of l) text s e log (Hshape l)) as (Happ & Hsort & Hin).
    destruct (IH e (snd (breakWord (engine_of l) text s e log)) Hord) as (Hrep & Hsort' & Hin').
    pose proof (ordered_le _ _ _ Hord) as Hle.
    unfold replay in Hrep |- *. simpl. rewrite Hrep, Happ, app_assoc.
    split; [reflexivity|]. split.
    + apply StronglySorted_app. split; [|done].
      intros x1 x2 Hx1 Hx2.
      apply (proj1 (Forall_forall _ _) Hin) in Hx1.
      apply (proj1 (Forall_forall _ _) Hin') in Hx2. lia.
    + apply Forall_app. split.
      * eapply Forall_impl; [exact Hin|]. simpl. intros p Hp. lia.
      * eapply Forall_impl; [exact Hin'|]. simpl. intros p Hp. lia.
Qed.

Lemma engine_calls_ordered (text : Z → Z) (rangeStart rangeEnd : Z) :
  (rangeStart ≤ rangeEnd)%Z → ordered rangeStart rangeEnd (engine_calls text rangeStart rangeEnd).
Proof.
  intros Hle.
  destruct (chunks_formed_facts text rangeStart rangeEnd Hle) as (Ht & _ & _ & ->).
  apply (tiles_ordered _ _ _ Ht). lia.
Qed.

(** The reports of one dispatcher call, chunk by chunk. *)
Lemma BreakSALine_lstm_reports
    (lstm_model_thai lstm_model_lao lstm_model_burmese lstm_model_khmer : lstm_data)
    (text : Z → Z) (rangeStart rangeEnd : Z) :
  let reported :=
    snd (BreakSALine_lstm lstm_model_thai lstm_model_lao lstm_model_burmese
           lstm_model_khmer text rangeStart rangeEnd []) in
  let engine_of :=
    get_break_engine_by_lang
      (LSTMData_new lstm_model_thai) (LSTMData_new lstm_model_lao)
      (LSTMData_new lstm_model_burmese) (LSTMData_new lstm_model_khmer) in
  StronglySorted Z.lt reported ∧
  Forall (λ p, (rangeStart + 1 ≤ p ≤ rangeEnd - 1)%Z) reported ∧
  reported =
    concat (map (λ ck : chunk,
                   snd (breakWord (engine_of (fst (fst ck))) text (snd (fst ck)) (snd ck) []))
                (engine_calls text rangeStart rangeEnd)).
Proof.
  intros reported engine_of. subst reported. unfold BreakSALine_lstm.
  rewrite BreakSALine_replay. fold engine_of.
  assert (∀ lang, shapes_ok (engine_of lang)) as Hshape.
  { intros []; apply shapes_ok_new. }
  destruct (decide (rangeStart ≤ rangeEnd)%Z) as [Hle|Hgt].
  - destruct (replay_breakWord engine_of text (engine_calls text rangeStart rangeEnd)
                rangeStart rangeEnd [] Hshape (engine_calls_ordered _ _ _ Hle))
      as (-> & Hsort & Hin).
    simpl. split; [done|]. split; [|done].
    eapply Forall_impl; [exact Hin|]. simpl. intros p Hp. lia.
  - destruct (chunks_formed_reversed text rangeStart rangeEnd) as [_ ->]; [lia|].
    simpl. repeat split; constructor.
Qed.

(** C5. The positions one [BreakSALine] call passes to the callback are
    strictly increasing and lie in [rangeStart + 1, rangeEnd - 1]; they
    are the reports of the engine calls, chunk after chunk in the order of
    the chunks. *)
Theorem callbacks_strictly_increasing
    (lstm_model_thai lstm_model_lao lstm_model_burmese lstm_model_khmer : lstm_data)
    (text : Z → Z) (rangeStart rangeEnd : Z) :
  let reported :=
    snd (BreakSALine_lstm lstm_model_thai lstm_model_lao lstm_model_burmese
           lstm_model_khmer text rangeStart rangeEnd []) in
  let engine_of :=
    get_break_engine_by_lang
      (LSTMData_new lstm_model_thai) (LSTMData_new lstm_model_lao)
      (LSTMData_new lstm_model_burmese) (LSTMData_new lstm_model_khmer) in
  StronglySorted Z.lt reported ∧
  Forall (λ p, (rangeStart + 1 ≤ p ≤ rangeEnd - 1)%Z) reported ∧
  reported =
    concat (map (λ ck : chunk,
                   snd (breakWord (engine_of (fst (fst ck))) text (snd (fst ck)) (snd ck) []))
                (engine_calls text rangeStart rangeEnd)).
Proof. apply BreakSALine_lstm_reports. Qed.

(** C3. The chunks the walk forms partition the range: concatenated in
    order they are the positions of the range, none twice; every position
    of a chunk has the chunk's script (so no UNK position lies in a chunk
    of a supported script); the engine is called on exactly the chunks of
    a supported script, never on an UNK chunk; and no position reported
    to the callback lies in an UNK chunk or at either of its bounds. *)
Theorem chunks_partition_range
    (lstm_model_thai lstm_model_lao lstm_model_burmese lstm_model_khmer : lstm_data)
    (text : Z → Z) (rangeStart rangeEnd : Z) :
  let chunks := chunks_formed text rangeStart rangeEnd in
  concat (map chunk_positions chunks) = positions rangeStart rangeEnd ∧
  NoDup (concat (map chunk_positions chunks)) ∧
  Forall (λ ck : chunk, ∀ p, p ∈ chunk_positions ck →
            classify_language (text p) = fst (fst ck)) chunks ∧
  Forall (λ ck : chunk, fst (fst ck) ≠ UNK → ∀ p, p ∈ chunk_positions ck →
            classify_language (text p) ≠ UNK) chunks ∧
  engine_calls text rangeStart rangeEnd =
    filter (λ ck : chunk, fst (fst ck) ≠ UNK) chunks ∧
  Forall (λ ck : chunk, fst (fst ck) ≠ UNK) (engine_calls text rangeStart rangeEnd) ∧
  Forall (λ p, Forall (λ ck : chunk, fst (fst ck) = UNK →
                         ¬ (snd (fst ck) ≤ p ≤ snd ck)%Z) chunks)
         (snd (BreakSALine_lstm lstm_model_thai lstm_model_lao lstm_model_burmese
                 lstm_model_khmer text rangeStart rangeEnd [])).
Proof.
  intros chunks. subst chunks.
  assert (concat (map chunk_positions (chunks_formed text rangeStart rangeEnd)) =
            positions rangeStart rangeEnd ∧
          Forall (homogeneous text) (chunks_formed text rangeStart rangeEnd) ∧
          engine_calls text rangeStart rangeEnd =
            supported (chunks_formed text rangeStart rangeEnd)) as (Hcat & Hhom & Hcalls).
  { destruct (decide (rangeStart ≤ rangeEnd)%Z) as [Hle|Hgt].
    - destruct (chunks_formed_facts text rangeStart rangeEnd Hle) as (Ht & Hh & _ & Hc).
      split; [apply tiles_positions, Ht|done].
    - destruct (chunks_formed_reversed text rangeStart rangeEnd) as [-> ->]; [lia|].
      split; [simpl; apply app_nil_r|]. split; [|done].
      repeat constructor. intros p Hp. simpl in Hp. lia. }
  assert (Forall (λ ck : chunk, ∀ p, p ∈ chunk_positions ck →
            classify_language (text p) = fst (fst ck))
          (chunks_formed text rangeStart rangeEnd)) as Hscript.
  { eapply Forall_impl; [exact Hhom|]. intros ck Hck p Hp.
    apply Hck. apply elem_of_positions in Hp. exact Hp. }
  split; [exact Hcat|]. split; [rewrite Hcat; apply NoDup_positions|].
  split; [exact Hscript|]. split.
  { eapply Forall_impl; [exact Hscript|]. intros ck Hck Hl p Hp.
    rewrite (Hck p Hp). exact Hl. }
  split; [exact Hcalls|]. split.
  { rewrite Hcalls. apply Forall_forall. intros ck Hck.
    apply list_elem_of_filter in Hck as [Hl _]. exact Hl. }
  destruct (BreakSALine_lstm_reports lstm_model_thai lstm_model_lao
              lstm_model_burmese lstm_model_khmer text rangeStart rangeEnd)
    as (_ & _ & Hrep).
  cbv zeta in Hrep. rewrite Hrep. clear Hrep.
  destruct (decide (rangeStart ≤ rangeEnd)%Z) as [Hle|Hgt].
  - destruct (chunks_formed_facts text rangeStart rangeEnd Hle) as (Ht & _ & _ & _).
    apply Forall_forall. intros p Hp. apply Forall_forall. intros cku Hcku Hunk.
    apply list_elem_of_In, in_concat in Hp as (reports & Hreports & Hp).
    apply in_map_iff in Hreports as (ck & <- & Hck).
    apply list_elem_of_In in Hck, Hp.
    rewrite Hcalls in Hck. apply list_elem_of_filter in Hck as [Hsup Hck].
    match type of Hp with p ∈ snd (breakWord ?fd _ _ _ _) =>
      destruct (breakWord_appends fd text (snd (fst ck)) (snd ck) []) as (_ & _ & Hin);
        [destruct (fst (fst ck)); apply shapes_ok_new|]
    end.
    apply (proj1 (Forall_forall _ _) Hin) in Hp.
    destruct (tiles_apart _ _ _ ck cku Ht Hck Hcku) as [->|[Hap|Hap]]; [done|lia|lia].
  - destruct (chunks_formed_reversed text rangeStart rangeEnd) as [_ ->]; [lia|].
    constructor.
Qed.

End Linked.

(** ** Evaluation on the concrete instance *)

(** C1. On 2049 Thai code points followed by two Lao ones the Thai engine
    call fails with -1, yet the dispatcher goes on to call the Lao engine
    and returns 0. *)
Lemma BreakSALine_drops_engine_failure :
  engine_calls sample_long 0 2051 = [(THAI, 0, 2049); (LAO, 2049, 2051)]%Z ∧
  fst (@breakWord Z_scalar (LSTMData_new sample_model) sample_long 0 2049 []) = (-1)%Z ∧
  fst (@BreakSALine_lstm Z_scalar sample_model sample_model sample_model sample_model
         sample_long 0 2051 []) = 0%Z.
Proof. vm_compute. repeat split. Qed.

Lemma Z_entries_ordered (a : list Z) : @ordered_entries Z_scalar a.
Proof.
  unfold ordered_entries. simpl. repeat split.
  - intros x _. rewrite Z.gtb_ltb. apply Z.ltb_irrefl.
  - intros x y z _ _ _. rewrite !Z.gtb_ltb, !Z.ltb_lt. lia.
  - intros x y z _ _ _. rewrite !Z.gtb_ltb, !Z.ltb_ge. lia.
Qed.

(** The argmax theorem at the logits [3; 7; 7; 1]: the index returned is 1. *)
Lemma maxIndex_lowest_maximum_witness :
  let a : list (@F Z_scalar) := [3; 7; 7; 1]%Z in
  a ≠ [] ∧ @ordered_entries Z_scalar a ∧
  (@maxIndex Z_scalar a < length a ∧
   (∀ j, j < length a → @fgt Z_scalar (@rd Z_scalar a j) (@rd Z_scalar a (@maxIndex Z_scalar a)) = false) ∧
   (∀ j, j < @maxIndex Z_scalar a →
      @fgt Z_scalar (@rd Z_scalar a (@maxIndex Z_scalar a)) (@rd Z_scalar a j) = true) ∧
   (length a = 4 → (∀ j, j < 4 → @rd Z_scalar a j = @rd Z_scalar a 0) →
      @maxIndex Z_scalar a = BEGIN)).
Proof.
  intros a.
  split; [discriminate|]. split; [apply Z_entries_ordered|].
  apply (@maxIndex_lowest_maximum Z_scalar a); [discriminate|apply Z_entries_ordered].
Defined.

(** The engine theorem on eight Thai code points: positions 3, 4 and 7 are
    reported. *)
Lemma breakWord_reports_labelled_positions_witness :
  (8 - 0 ≤ 2048)%Z ∧
  @breakWord Z_scalar (LSTMData_new sample_model) sample_thai 0 8 [] =
    (0%Z, [3; 4; 7]%Z).
Proof.
  split; [lia|].
  destruct (@breakWord_reports_labelled_positions Z_scalar sample_model sample_thai
              0%Z 8%Z [] ltac:(lia)) as (Hrun & _ & _).
  rewrite Hrun. vm_compute. reflexivity.
Defined.

(** The cell theorem on the forward weights of the sample model. *)
Lemma compute_is_forget_gated_step_witness :
  let fData := @LSTMData_new Z_scalar sample_model in
  let W := @ConstArray2D_read Z_scalar (fForwardW fData) in
  let U := @ConstArray2D_read Z_scalar (fForwardU fData) in
  let b := @ConstArray1D_read Z_scalar (fForwardB fData) in
  let x := @ConstArray1D_read Z_scalar (ConstArray2D_row (fEmbedding fData) 1) in
  let h : list (@F Z_scalar) := [1%Z] in
  let c : list (@F Z_scalar) := [2%Z] in
  let ifco : list (@F Z_scalar) := [0; 0; 0; 0]%Z in
  (d1_2 W = 1 ∧ d2 W = 4 * 1 ∧ d1_2 U = 1 ∧ d2 U = 4 * 1 ∧ d1 b = 4 * 1 ∧ d1 x = 1 ∧
   length h = 1 ∧ length c = 1 ∧ length ifco = 4 * 1) ∧
  @compute Z_scalar 1 W U b x h c ifco = ([1%Z], [1%Z], [1; 1; -1; 1]%Z) ∧
  @lstm_step Z_scalar 1 W U b x (h, c) = ([1%Z], [1%Z]).
Proof.
  intros fData W U b x h c ifco.
  split; [repeat split|].
  destruct (@compute_is_forget_gated_step Z_scalar 1 1 W U b x h c ifco)
    as (Hstep & Hgates & _); try reflexivity.
  split; [|rewrite <- Hstep]; vm_compute; reflexivity.
Defined.

(** The walk on Latin, Thai, Khmer, Latin: the chunks, the engine calls and
    the reports; the bound between the Thai and the Khmer chunk is not
    reported. *)
Example sample_mixed_chunks :
  chunks_formed sample_mixed 0 10 =
  [(UNK, 0, 2); (THAI, 2, 6); (KHMER, 6, 9); (UNK, 9, 10)]%Z.
Proof. vm_compute. reflexivity. Qed.

Example sample_mixed_engine_calls :
  engine_calls sample_mixed 0 10 = [(THAI, 2, 6); (KHMER, 6, 9)]%Z.
Proof. vm_compute. reflexivity. Qed.

Example sample_mixed_reports :
  @BreakSALine_lstm Z_scalar sample_model sample_model sample_model sample_model
    sample_mixed 0 10 [] = (0%Z, [4%Z]).
Proof. vm_compute. reflexivity. Qed.

(** An empty range: no engine call, no report. *)
Example sample_empty_range :
  engine_calls sample_mixed 3 3 = [] ∧
  @BreakSALine_lstm Z_scalar sample_model sample_model sample_model sample_model
    sample_mixed 3 3 [] = (0%Z, []).
Proof. vm_compute. split; reflexivity. Qed.

(** The labels of the reference network on eight Thai code points. *)
Example sample_thai_labels :
  map (@label Z_scalar (LSTMData_new sample_model) sample_thai 0%Z 8) (seq 0 8) =
  [BEGIN; INSIDE; INSIDE; SINGLE; BEGIN; INSIDE; INSIDE; SINGLE].
Proof. vm_compute. reflexivity. Qed.

(** * Further properties of the array primitives *)

Section MoreArrays.
Context `{Scalar}.

Lemma map_rd_seq {B : Type} (f : F → B) (l : list F) :
  map (λ i, f (rd l i)) (seq 0 (length l)) = map f l.
Proof.
  induction l as [|x l IH] using rev_ind; [reflexivity|].
  rewrite length_app. simpl. rewrite Nat.add_1_r, seq_S, !map_app. simpl.
  f_equal.
  - rewrite <- IH. apply map_seq_ext. intros i Hi. rewrite rd_app_l by done. reflexivity.
  - rewrite <- (Nat.add_0_r (length l)), rd_app_r. reflexivity.
Qed.

Lemma add_eq (a : ReadArray1D) (this : list F) :
  add a this = map (λ i, fadd (rd this i) (get a i)) (seq 0 (length this)).
Proof. unfold add. apply (insert_pointwise (λ i v, fadd v (get a i))). Qed.

Lemma slice_slice_put (a s : list F) (from size : nat) :
  from + size ≤ length a → length s = size →
  slice from size (slice_put from size s a) = s.
Proof.
  intros Hle Hs. apply rd_ext.
  - rewrite length_slice; [lia|]. rewrite length_slice_put by done. lia.
  - intros k Hk. rewrite length_slice in Hk by (rewrite length_slice_put by done; lia).
    rewrite rd_slice, rd_slice_put_in by (done || lia). reflexivity.
Qed.

Lemma slice_put_slice (a : list F) (from size : nat) :
  slice_put from size (slice from size a) a = a.
Proof.
  unfold slice_put, slice.
  rewrite <- (take_drop from a) at 4. f_equal.
  rewrite <- (take_drop size (drop from a)) at 2. f_equal.
  rewrite drop_drop. reflexivity.
Qed.

Lemma length_on_slice (op : list F → list F) (a : list F) (from size : nat) :
  (∀ l, length (op l) = length l) → length (on_slice from size op a) = length a.
Proof.
  intros Hop. unfold on_slice, slice_put, slice.
  rewrite !length_app, Hop, !length_take, !length_drop. lia.
Qed.

(** X1. A slice aliases its parent: a window written through the slice is
    what the slice then reads, the parent keeps its length and every entry
    outside the window, and writing back what was read changes nothing. *)
Theorem slice_write_through (a s : list F) (from size : nat) :
  from + size ≤ length a → length s = size →
  slice from size (slice_put from size s a) = s ∧
  length (slice_put from size s a) = length a ∧
  (∀ k, k < from ∨ from + size ≤ k → rd (slice_put from size s a) k = rd a k) ∧
  (∀ k, k < size → rd (slice_put from size s a) (from + k) = rd s k) ∧
  slice_put from size (slice from size a) a = a.
Proof.
  intros Hle Hs. split; [apply slice_slice_put; done|].
  split; [apply length_slice_put; done|].
  split; [intros k Hk; apply rd_slice_put_out; done|].
  split; [intros k Hk; apply rd_slice_put_in; (done || lia)|].
  apply slice_put_slice.
Qed.

(** X2. Rows of an [Array2D] are independent windows: a row written
    through its alias reads back as written, every other row is untouched
    and the buffer keeps its size. *)
Theorem Array2D_row_write_read (a : Array2D) (i : nat) (r : list F) :
  rows_ok a → i < a2_d1 a → length r = a2_d2 a →
  Array2D_row (Array2D_row_put i r a) i = r ∧
  (∀ j, j < a2_d1 a → j ≠ i →
     Array2D_row (Array2D_row_put i r a) j = Array2D_row a j) ∧
  rows_ok (Array2D_row_put i r a) ∧
  Array2D_row_put i (Array2D_row a i) a = a.
Proof.
  intros Hok Hi Hr. split; [apply Array2D_row_put_eq; done|].
  split; [intros j Hj Hne; apply Array2D_row_put_ne; done|].
  split; [apply rows_ok_put; done|].
  unfold Array2D_row_put, Array2D_row. rewrite slice_put_slice.
  destruct a; reflexivity.
Qed.

(** X3. A freshly allocated [Array2D] and a cleared one hold only zeros:
    every row reads as [d2] zeros, entry by entry as well. *)
Theorem Array2D_zero_rows (a : Array2D) (d1 d2 i j : nat) :
  (i < d1 → Array2D_row (Array2D_new d1 d2) i = replicate d2 fzero) ∧
  (i < a2_d1 a → Array2D_row (Array2D_clear a) i = replicate (a2_d2 a) fzero) ∧
  get2 (Array2D_read (Array2D_new d1 d2)) i j = fzero ∧
  get2 (Array2D_read (Array2D_clear a)) i j = fzero ∧
  Array2D_clear (Array2D_new d1 d2) = Array2D_new d1 d2.
Proof.
  split; [apply Array2D_row_new|].
  split; [intros Hi; apply (Array2D_row_new (a2_d1 a) (a2_d2 a) i Hi)|].
  repeat split; simpl; apply rd_replicate.
Qed.

(** X4. [get(i, j)] of a two-dimensional array is entry [j] of [row(i)]:
    for a borrowed view at every [j], for an owned buffer inside the row. *)
Theorem row_entry_is_get (c : ConstArray2D) (a : Array2D) (i j : nat) :
  get (ConstArray1D_read (ConstArray2D_row c i)) j = get2 (ConstArray2D_read c) i j ∧
  d1 (ConstArray1D_read (ConstArray2D_row c i)) = d2 (ConstArray2D_read c) ∧
  (j < a2_d2 a → rd (Array2D_row a i) j = get2 (Array2D_read a) i j).
Proof.
  split; [simpl; apply rd_drop|]. split; [reflexivity|].
  intros Hj. simpl. unfold Array2D_row. apply rd_slice, Hj.
Qed.

(** X5. [assign] copies: the buffer ends as the first [d1] entries of the
    source whatever it held before, assigning twice is assigning once, and
    a source of the same length is copied whole. *)
Theorem assign_copies (a : ReadArray1D) (src this other : list F) :
  length (assign a this) = length this ∧
  (∀ i, i < length this → rd (assign a this) i = get a i) ∧
  (length other = length this → assign a other = assign a this) ∧
  assign a (assign a this) = assign a this ∧
  (length src = length this → assign (Array1D_read src) this = src).
Proof.
  split; [rewrite assign_eq; apply length_map_seq|].
  split; [intros i Hi; rewrite assign_eq; apply rd_map_seq0, Hi|].
  split; [intros Hlen; rewrite !assign_eq, Hlen; reflexivity|].
  split; [rewrite !assign_eq, length_map_seq; reflexivity|].
  apply assign_read.
Qed.

(** X6. [addDotProduct] keeps the length and adds to entry [i] the
    products [a[j] * b[j][i]] in increasing [j]; with an empty [a] it
    changes nothing. *)
Theorem addDotProduct_entries (a : ReadArray1D) (b : ReadArray2D) (this : list F) :
  length (addDotProduct a b this) = length this ∧
  (∀ i, i < length this →
     rd (addDotProduct a b this) i =
     dot_acc (rd this i) (d1 a) (get a) (λ j, get2 b j i)) ∧
  (d1 a = 0 → addDotProduct a b this = this).
Proof.
  rewrite addDotProduct_eq, length_map_seq.
  split; [reflexivity|].
  split; [intros i Hi; rewrite rd_map_seq0 by done; reflexivity|].
  intros Ha. rewrite Ha. unfold dot_acc. simpl.
  rewrite (map_rd_seq (λ x, x)). apply map_id.
Qed.

(** X7. [addHadamardProduct(a, b)] is [add] of the Hadamard product of
    [a] and [b]. *)
Theorem addHadamardProduct_is_add_of_product (a : list F) (b : ReadArray1D) (this : list F) :
  length a = length this →
  addHadamardProduct (Array1D_read a) b this =
  add (Array1D_read (hadamardProduct b a)) this.
Proof.
  intros Hlen. rewrite addHadamardProduct_eq, add_eq, hadamardProduct_eq.
  apply map_seq_ext. intros i Hi. simpl.
  rewrite rd_map_seq0 by lia. reflexivity.
Qed.

(** X8. The in-place [tanh()], which reads the buffer it is writing, is
    [tanh] of a separate copy of the buffer: the hyperbolic tangent of
    every entry. *)
Theorem tanh_in_place (this : list F) :
  tanh this = tanh_of this this ∧ tanh this = map ftanh this.
Proof.
  rewrite tanh_eq, tanh_of_eq. split; [reflexivity|]. apply map_rd_seq.
Qed.

(** X9. [sigmoid()] replaces every entry [x] by [1 / (1 + e^-x)]. *)
Theorem sigmoid_entries (this : list F) :
  sigmoid this = map (λ x, fdiv fone (fadd fone (fexp (fneg x)))) this.
Proof. rewrite sigmoid_eq. apply (map_rd_seq logistic). Qed.

(** X10. [hadamardProduct] and [add] work entry by entry and keep the
    length. *)
Theorem hadamardProduct_add_entries (a : ReadArray1D) (this : list F) :
  length (hadamardProduct a this) = length this ∧
  length (add a this) = length this ∧
  ∀ i, i < length this →
    rd (hadamardProduct a this) i = fmul (rd this i) (get a i) ∧
    rd (add a this) i = fadd (rd this i) (get a i).
Proof.
  rewrite hadamardProduct_eq, add_eq, !length_map_seq.
  split; [reflexivity|]. split; [reflexivity|].
  intros i Hi. rewrite !rd_map_seq0 by done. done.
Qed.

End MoreArrays.

(** * Further properties of the engine's data and cell *)

Section MoreEngine.
Context `{Scalar}.

(** X11. On a blob of the length the constructor expects, the nine views
    are consecutive windows that cover the blob exactly, in the order
    embedding, forward W, U, b, backward W, U, b, output W, b. *)
Theorem LSTMData_new_partitions_blob (model : lstm_data) :
  length (matrices model) = blob_size model →
  let fData := LSTMData_new model in
  matrices model =
    ConstArray2D_window (fEmbedding fData) ++
    ConstArray2D_window (fForwardW fData) ++
    ConstArray2D_window (fForwardU fData) ++
    ConstArray1D_window (fForwardB fData) ++
    ConstArray2D_window (fBackwardW fData) ++
    ConstArray2D_window (fBackwardU fData) ++
    ConstArray1D_window (fBackwardB fData) ++
    ConstArray2D_window (fOutputW fData) ++
    ConstArray1D_window (fOutputB fData).
Proof.
  intros Hlen fData. subst fData.
  unfold LSTMData_new, ConstArray2D_window, ConstArray1D_window,
    ConstArray2D_init, ConstArray1D_init.
  cbn [fEmbedding fForwardW fForwardU fForwardB fBackwardW fBackwardU fBackwardB
       fOutputW fOutputB ca2_data ca2_d1 ca2_d2 ca1_data ca1_d1].
  unfold blob_size in Hlen.
  set (N := num_index model) in *. set (E := embedding_size model) in *.
  set (Hn := hunits model) in *. set (l := matrices model) in *.
  replace (E * (4 * Hn)) with (E * 4 * Hn) by lia.
  replace (Hn * (4 * Hn)) with (Hn * 4 * Hn) by lia.
  rewrite (take_ge _ 4) by (rewrite !length_drop; lia).
  rewrite !take_drop. reflexivity.
Qed.

(** X12. On such a blob every view lies inside the blob: its pointer has
    at least [d1 * d2] (or [d1]) scalars after it, so an index inside the
    declared shape never reads past the end. *)
Theorem LSTMData_new_views_in_bounds (model : lstm_data) :
  length (matrices model) = blob_size model →
  let fData := LSTMData_new model in
  let fits2 := λ v : ConstArray2D,
    ∀ i j, i < ca2_d1 v → j < ca2_d2 v → i * ca2_d2 v + j < length (ca2_data v) in
  let fits1 := λ v : ConstArray1D, ∀ i, i < ca1_d1 v → i < length (ca1_data v) in
  fits2 (fEmbedding fData) ∧
  fits2 (fForwardW fData) ∧ fits2 (fForwardU fData) ∧ fits1 (fForwardB fData) ∧
  fits2 (fBackwardW fData) ∧ fits2 (fBackwardU fData) ∧ fits1 (fBackwardB fData) ∧
  fits2 (fOutputW fData) ∧ fits1 (fOutputB fData).
Proof.
  intros Hlen fData fits2 fits1. subst fData fits2 fits1.
  unfold LSTMData_new, ConstArray2D_init, ConstArray1D_init.
  cbn [fEmbedding fForwardW fForwardU fForwardB fBackwardW fBackwardU fBackwardB
       fOutputW fOutputB ca2_data ca2_d1 ca2_d2 ca1_data ca1_d1].
  unfold blob_size in Hlen.
  set (N := num_index model) in *. set (E := embedding_size model) in *.
  set (Hn := hunits model) in *. set (l := matrices model) in *.
  repeat split; intros; rewrite ?length_drop; nia.
Qed.

(** X13. [compute] never resizes a buffer: whatever the shapes of its
    arguments, [h], [c] and [ifco] keep their lengths. *)
Theorem compute_keeps_sizes (hunits : nat) (W U : ReadArray2D) (b x : ReadArray1D)
    (h c ifco : list F) :
  length (compute hunits W U b x h c ifco).1.1 = length h ∧
  length (compute hunits W U b x h c ifco).1.2 = length c ∧
  length (compute hunits W U b x h c ifco).2 = length ifco.
Proof.
  assert (∀ l, length (sigmoid l) = length l) as Hs
    by (intros l; rewrite sigmoid_eq; apply length_map_seq).
  assert (∀ l, length (tanh l) = length l) as Ht
    by (intros l; rewrite tanh_eq; apply length_map_seq).
  unfold compute. cbn [fst snd]. split; [|split].
  - rewrite hadamardProduct_eq, length_map_seq, tanh_of_eq, length_map_seq. reflexivity.
  - apply compute_c_length.
  - rewrite !length_on_slice by done.
    rewrite !addDotProduct_eq, !length_map_seq, assign_eq, length_map_seq. reflexivity.
Qed.

(** X14. [ifco] is scratch: [compute] gives the same three buffers
    whatever [ifco] held on entry, which is why the engine passes the same
    [ifco] to every step of both directions without clearing it. *)
Theorem compute_ignores_scratch (hunits : nat) (W U : ReadArray2D) (b x : ReadArray1D)
    (h c ifco ifco' : list F) :
  length ifco' = length ifco →
  compute hunits W U b x h c ifco' = compute hunits W U b x h c ifco.
Proof.
  intros Hlen. unfold compute. rewrite (assign_eq b ifco'), (assign_eq b ifco), Hlen.
  reflexivity.
Qed.

(** The scan of [maxIndex] without any assumption on [>]: the index stays
    inside the part scanned, [max] is the entry there, no scanned entry
    exceeds [max] when [>] is transitive, and no earlier entry equals it. *)
Lemma maxIndex_scan_partial (a : list F) :
  a ≠ [] →
  let st := for_range 1 (length a)
              (λ i '(index, max), if fgt (rd a i) max then (i, rd a i) else (index, max))
              (0, rd a 0) in
  st.1 < length a ∧ st.2 = rd a st.1 ∧
  (partially_ordered_entries a → ∀ j, j < length a → fgt (rd a j) st.2 = false) ∧
  (partially_ordered_entries a → ∀ j, j < st.1 → rd a j ≠ st.2).
Proof.
  intros Hne. simpl.
  assert (0 < length a) as Hlen by (destruct a; [done|simpl; lia]).
  apply (for_range_ind (λ i (st : nat * F),
    st.1 < i ∧ st.2 = rd a st.1 ∧
    (partially_ordered_entries a → ∀ j, j < i → fgt (rd a j) st.2 = false) ∧
    (partially_ordered_entries a → ∀ j, j < st.1 → rd a j ≠ st.2))); [lia| |].
  - simpl. split; [lia|]. split; [done|]. split; [|intros; lia].
    intros (Hirr & _) j Hj. assert (j = 0) as -> by lia. apply Hirr, rd_elem_of, Hlen.
  - intros i [index max] Hi (Hidx & Hmax & Hle & Hlow). simpl in *. subst max.
    destruct (fgt (rd a i) (rd a index)) eqn:Hgt; simpl.
    + split; [lia|]. split; [done|]. split.
      * intros Hpo j Hj. pose proof Hpo as (Hirr & Htrans).
        destruct (decide (j = i)) as [->|Hji]; [apply Hirr, rd_elem_of; lia|].
        destruct (fgt (rd a j) (rd a i)) eqn:Hji'; [|done].
        rewrite <- (Hle Hpo j ltac:(lia)). symmetry.
        apply (Htrans _ (rd a i)); try done; apply rd_elem_of; lia.
      * intros Hpo j Hj Heq. rewrite <- Heq, (Hle Hpo j Hj) in Hgt. done.
    + split; [lia|]. split; [done|]. split; [|done].
      intros Hpo j Hj. destruct (decide (j = i)) as [->|Hji]; [done|].
      apply Hle; [done|lia].
Qed.

(** X15. On a non-empty array [maxIndex] returns an index of the array,
    whatever the entries (NaN included); on the four logits it is one of
    the four labels. *)
Theorem maxIndex_in_range (a : list F) :
  a ≠ [] →
  maxIndex a < length a ∧
  (length a = 4 →
     maxIndex a = BEGIN ∨ maxIndex a = INSIDE ∨ maxIndex a = END ∨ maxIndex a = SINGLE).
Proof.
  intros Hne. destruct (maxIndex_scan_partial a Hne) as (Hidx & _).
  fold (maxIndex a) in Hidx. split; [exact Hidx|].
  intros Hlen. unfold BEGIN, INSIDE, END, SINGLE. lia.
Qed.

(** X16. When [>] is irreflexive and transitive on the entries (true of
    floats even with NaN among them), no entry exceeds the entry
    [maxIndex] returns, and no entry before it is equal to it. *)
Theorem maxIndex_not_exceeded (a : list F) :
  a ≠ [] → partially_ordered_entries a →
  (∀ j, j < length a → fgt (rd a j) (rd a (maxIndex a)) = false) ∧
  (∀ j, j < maxIndex a → rd a j ≠ rd a (maxIndex a)).
Proof.
  intros Hne Hpo. destruct (maxIndex_scan_partial a Hne) as (_ & Hmax & Hle & Hlow).
  fold (maxIndex a) in *. rewrite Hmax in Hle, Hlow.
  split; [apply Hle, Hpo|apply Hlow, Hpo].
Qed.

End MoreEngine.

(** * Further properties of [breakWord] *)

Section MoreBreakWord.
Context `{Scalar}.

Lemma vectorize_length (fData : LSTMData) (text : Z → Z) (startPos : Z) (n : nat) :
  length (vectorize fData text startPos n) = n.
Proof.
  unfold vectorize.
  apply (for_range_ind (λ _ (t : list Z), length t = n)); [lia| |].
  - apply length_replicate.
  - intros i t _ Hlen. rewrite length_insert. exact Hlen.
Qed.

Lemma vectorize_ext (fData : LSTMData) (text1 text2 : Z → Z) (s1 s2 : Z) (n : nat) :
  (∀ i : nat, i < n → text1 (s1 + Z.of_nat i)%Z = text2 (s2 + Z.of_nat i)%Z) →
  vectorize fData text1 s1 n = vectorize fData text2 s2 n.
Proof.
  intros Hagree. apply list_eq. intros i.
  destruct (decide (i < n)) as [Hi|Hi].
  - rewrite !vectorize_lookup by done. rewrite Hagree by done. reflexivity.
  - rewrite !lookup_ge_None_2 by (rewrite vectorize_length; lia). reflexivity.
Qed.

(** The fused loop uses [startPos] only to name the positions it reports. *)
Lemma forward_pass_shift (fData : LSTMData) (indices : list Z) (n hunits : nat)
    (s1 s2 : Z) (hBackward : Array2D) (st : list F * list F * list F * list F) (log : list Z) :
  forward_pass fData indices n hunits s2 hBackward (st, map (λ p, (p + (s2 - s1))%Z) log) =
  ((forward_pass fData indices n hunits s1 hBackward (st, log)).1,
   map (λ p, (p + (s2 - s1))%Z) (forward_pass fData indices n hunits s1 hBackward (st, log)).2).
Proof.
  unfold forward_pass, for_range.
  pose (R := λ (a b : list F * list F * list F * list F * list Z),
              a.1 = b.1 ∧ a.2 = map (λ p, (p + (s2 - s1))%Z) b.2).
  match goal with |- fold_left ?f2 ?l ?a2 = (?x.1, _) =>
    match x with fold_left ?f1 _ ?a1 =>
      assert (R (fold_left f2 l a2) (fold_left f1 l a1)) as HR
    end
  end.
  { apply fold_left_rel; [done|].
    intros i [[[[fb2 c2] if2] lp2] lg2] [[[[fb1 c1] if1] lp1] lg1] [Hst Hlg].
    simpl in Hst, Hlg. injection Hst as -> -> -> ->. subst lg2.
    destruct (compute _ _ _ _ _ _ _ _) as [[fr c'] ifco'].
    rewrite !emit_step. unfold R. cbn [fst snd]. split; [reflexivity|].
    rewrite map_app. f_equal. case_decide; simpl; [f_equal; lia|reflexivity]. }
  destruct HR as [H1 H2].
  destruct (fold_left _ _ (st, map _ log)) as [st2 lg2]. simpl in H1, H2. subst.
  reflexivity.
Qed.

Lemma length_expected_breaks (fData : LSTMData) (text : Z → Z) (startPos : Z) (n : nat) :
  length (expected_breaks fData text startPos n) ≤ n - 1.
Proof.
  unfold expected_breaks. rewrite length_map. destruct n as [|n]; [simpl; lia|].
  simpl seq. rewrite filter_cons. rewrite decide_False by (intros [Hn _]; apply Hn; reflexivity).
  etransitivity; [apply length_filter|]. rewrite length_seq. lia.
Qed.

(** X17. On an empty range ([endPos <= startPos]) the engine returns 0 and
    invokes no callback, whatever the model. *)
Theorem breakWord_empty_range (fData : LSTMData) (text : Z → Z) (startPos endPos : Z)
    (log : list Z) :
  (endPos ≤ startPos)%Z → breakWord fData text startPos endPos log = (0%Z, log).
Proof.
  intros Hle. unfold breakWord.
  destruct (Z.gtb_spec (endPos - startPos) 2048) as [Hgt|_]; [lia|].
  replace (Z.to_nat (endPos - startPos)) with 0 by lia.
  reflexivity.
Qed.

(** X18. A call on a range of [L] code points invokes the callback at most
    [L - 1] times; on a single code point, never. *)
Theorem breakWord_report_count (model : lstm_data) (text : Z → Z) (startPos endPos : Z)
    (log : list Z) :
  length (snd (breakWord (LSTMData_new model) text startPos endPos log)) ≤
    length log + (Z.to_nat (endPos - startPos) - 1) ∧
  ((endPos - startPos = 1)%Z →
     breakWord (LSTMData_new model) text startPos endPos log = (0%Z, log)).
Proof.
  destruct (decide (endPos - startPos ≤ 2048)%Z) as [Hle|Hgt].
  - rewrite breakWord_log by (apply shapes_ok_new || done). cbn [snd].
    pose proof (length_expected_breaks (LSTMData_new model) text startPos
                  (Z.to_nat (endPos - startPos))) as Hn.
    rewrite length_app. split; [lia|].
    intros H1. f_equal. rewrite <- (app_nil_r log) at 2. f_equal.
    apply length_zero_iff_nil.
    assert (Z.to_nat (endPos - startPos) = 1) as Hone by lia.
    rewrite Hone in Hn |- *. lia.
  - unfold breakWord.
    destruct (Z.gtb_spec (endPos - startPos) 2048) as [_|Hle]; [|lia].
    cbn [snd]. split; lia.
Qed.

(** X19. The engine looks only at the code points of its range, and only
    relative to the start of the range: two calls on ranges of the same
    length with the same code points return the same value and report the
    same positions up to the shift between the two starts. *)
Theorem breakWord_depends_on_range_content (fData : LSTMData) (text1 text2 : Z → Z)
    (s1 e1 s2 e2 : Z) (log : list Z) :
  (e1 - s1 = e2 - s2)%Z →
  (∀ i, (0 ≤ i < e1 - s1)%Z → text1 (s1 + i)%Z = text2 (s2 + i)%Z) →
  fst (breakWord fData text2 s2 e2 (map (λ p, (p + (s2 - s1))%Z) log)) =
    fst (breakWord fData text1 s1 e1 log) ∧
  snd (breakWord fData text2 s2 e2 (map (λ p, (p + (s2 - s1))%Z) log)) =
    map (λ p, (p + (s2 - s1))%Z) (snd (breakWord fData text1 s1 e1 log)).
Proof.
  intros Hlen Hagree. unfold breakWord. rewrite <- Hlen.
  destruct (e1 - s1 >? 2048)%Z; [done|].
  rewrite (vectorize_ext fData text2 text1 s2 s1).
  2:{ intros i Hi. symmetry. apply Hagree. lia. }
  destruct (backward_pass _ _ _ _ _) as [[hB c] ifco].
  rewrite forward_pass_shift.
  destruct (forward_pass _ _ _ _ _ _ _) as [[[[fbRow c'] ifco'] logp'] lg].
  done.
Qed.

End MoreBreakWord.

(** * Further properties of the dispatcher *)

Lemma tiles_app (lo mid hi : Z) (cs1 cs2 : list chunk) :
  tiles lo mid cs1 → tiles mid hi cs2 → tiles lo hi (cs1 ++ cs2).
Proof.
  revert lo. induction cs1 as [|[[l s] e] cs1 IH]; intros lo H1 H2; simpl in *.
  - subst. exact H2.
  - destruct H1 as (-> & Hse & H1). repeat split; [done|]. apply IH; done.
Qed.

Lemma tiles_chunk (lo hi : Z) (cs : list chunk) (ck : chunk) :
  tiles lo hi cs → ck ∈ cs →
  (lo ≤ snd (fst ck))%Z ∧ (snd (fst ck) < snd ck)%Z ∧ (snd ck ≤ hi)%Z.
Proof.
  revert lo. induction cs as [|[[l s] e] cs IH]; intros lo Ht Hin; simpl in *.
  - apply elem_of_nil in Hin. done.
  - destruct Ht as (-> & Hse & Ht). pose proof (tiles_le _ _ _ Ht) as Hle.
    apply elem_of_cons in Hin as [->|Hin]; simpl; [lia|].
    destruct (IH _ Ht Hin) as (A1 & A2 & A3). lia.
Qed.

Lemma chunks_formed_maximal (text : Z → Z) (rangeStart rangeEnd : Z) :
  (rangeStart ≤ rangeEnd)%Z →
  maximal_runs text rangeStart rangeEnd (chunks_formed text rangeStart rangeEnd).
Proof.
  intros Hle.
  destruct (chunks_formed_facts text rangeStart rangeEnd Hle) as (Ht & Hh & He & _).
  repeat split; done.
Qed.

(** A range has one decomposition into maximal runs. *)
Lemma maximal_runs_unique (text : Z → Z) (lo hi : Z) (cs1 cs2 : list chunk) :
  maximal_runs text lo hi cs1 → maximal_runs text lo hi cs2 → cs1 = cs2.
Proof.
  revert lo cs2. induction cs1 as [|[[l1 s1] e1] cs1 IH]; intros lo cs2
    (Ht1 & Hh1 & He1) (Ht2 & Hh2 & He2).
  - simpl in Ht1. subst. destruct cs2 as [|[[l2 s2] e2] cs2]; [done|].
    simpl in Ht2. destruct Ht2 as (-> & Hse & Ht2). apply tiles_le in Ht2. lia.
  - simpl in Ht1. destruct Ht1 as (-> & Hse1 & Ht1).
    pose proof (tiles_le _ _ _ Ht1) as Hle1.
    destruct cs2 as [|[[l2 s2] e2] cs2]; [simpl in Ht2; lia|].
    simpl in Ht2. destruct Ht2 as (-> & Hse2 & Ht2).
    pose proof (tiles_le _ _ _ Ht2) as Hle2.
    inversion Hh1 as [|? ? Hh1a Hh1b]; subst. inversion Hh2 as [|? ? Hh2a Hh2b]; subst.
    inversion He1 as [|? ? He1a He1b]; subst. inversion He2 as [|? ? He2a He2b]; subst.
    unfold homogeneous, ends_at_change in *. simpl in *.
    assert (l1 = l2) as ->.
    { rewrite <- (Hh1a lo) by lia. apply Hh2a. lia. }
    assert (e1 = e2) as ->.
    { destruct (Z.lt_trichotomy e1 e2) as [Hlt|[Heq|Hgt]]; [|done|].
      - exfalso. apply He1a; [lia|]. apply Hh2a. lia.
      - exfalso. apply He2a; [lia|]. apply Hh1a. lia. }
    f_equal. apply (IH e2). all: repeat split; done.
Qed.

Lemma maximal_runs_adjacent (text : Z → Z) (lo hi : Z) (cs : list chunk) :
  maximal_runs text lo hi cs → adjacent_differ cs.
Proof.
  revert lo. induction cs as [|[[l1 s1] e1] cs IH]; intros lo (Ht & Hh & He); [done|].
  simpl in Ht. destruct Ht as (-> & Hse & Ht).
  inversion Hh as [|? ? Hh1 Hh2]; subst. inversion He as [|? ? He1 He2]; subst.
  simpl. split; [|apply (IH e1); repeat split; done].
  destruct cs as [|[[l2 s2] e2] cs]; [done|].
  simpl in Ht. destruct Ht as (-> & Hse2 & Ht). apply tiles_le in Ht.
  inversion Hh2 as [|? ? Hh2a _]; subst.
  unfold homogeneous, ends_at_change in *. simpl in *.
  intros ->. apply He1; [lia|]. apply Hh2a. lia.
Qed.

Lemma fold_left_ext_on {A X : Type} (f g : A → X → A) (l : list X) (a : A) :
  (∀ x a, x ∈ l → f a x = g a x) → fold_left f l a = fold_left g l a.
Proof.
  revert a. induction l as [|x l IH]; intros a Hfg; simpl; [done|].
  rewrite Hfg by apply list_elem_of_here. apply IH.
  intros y b Hy. apply Hfg. apply list_elem_of_further, Hy.
Qed.

(** The walk reads the text only at the positions of the range. *)
Lemma engine_calls_ext (text1 text2 : Z → Z) (rangeStart rangeEnd : Z) :
  (∀ p, (rangeStart ≤ p < rangeEnd)%Z → text1 p = text2 p) →
  engine_calls text1 rangeStart rangeEnd = engine_calls text2 rangeStart rangeEnd.
Proof.
  intros Hagree. unfold engine_calls, BreakSALine, for_positions.
  rewrite (fold_left_ext_on _
    (λ s pos, BreakSALine_body THAI LAO BURMESE KHMER (recording_breakWord 0) text2 pos s)).
  - destruct (fold_left _ _ _) as [[s l] calls]. reflexivity.
  - intros pos [[s l] calls] Hpos. apply elem_of_positions in Hpos.
    unfold BreakSALine_body. rewrite (Hagree pos Hpos). reflexivity.
Qed.

Lemma engine_calls_sound (text : Z → Z) (rangeStart rangeEnd : Z) :
  Forall (λ ck : chunk,
            fst (fst ck) ≠ UNK ∧
            (rangeStart ≤ snd (fst ck))%Z ∧ (snd (fst ck) < snd ck)%Z ∧
            (snd ck ≤ rangeEnd)%Z ∧ homogeneous text ck)
         (engine_calls text rangeStart rangeEnd).
Proof.
  destruct (decide (rangeStart ≤ rangeEnd)%Z) as [Hle|Hgt].
  - destruct (chunks_formed_facts text rangeStart rangeEnd Hle) as (Ht & Hh & _ & ->).
    apply Forall_forall. intros ck Hck.
    apply list_elem_of_filter in Hck as [Hl Hck].
    destruct (tiles_chunk _ _ _ _ Ht Hck) as (A1 & A2 & A3).
    repeat split; try done. apply (proj1 (Forall_forall _ _) Hh ck Hck).
  - destruct (chunks_formed_reversed text rangeStart rangeEnd) as [_ ->]; [lia|].
    constructor.
Qed.

Section MoreDispatcher.
Context {Engine World : Type}.
Variables e_thai e_lao e_burmese e_khmer : Engine.
Variable engine_breakWord : Engine → (Z → Z) → Z → Z → World → Z * World.

Lemma BreakSALine_as_replay (text : Z → Z) (rangeStart rangeEnd : Z) (w : World) :
  BreakSALine e_thai e_lao e_burmese e_khmer engine_breakWord text rangeStart rangeEnd w =
  (0%Z, replay (get_break_engine_by_lang e_thai e_lao e_burmese e_khmer) engine_breakWord
          text (engine_calls text rangeStart rangeEnd) w).
Proof.
  rewrite <- BreakSALine_replay,
    <- (BreakSALine_returns_zero e_thai e_lao e_burmese e_khmer engine_breakWord
          text rangeStart rangeEnd w).
  apply surjective_pairing.
Qed.

(** X20. On an empty range ([rangeEnd <= rangeStart]) the dispatcher calls
    no engine, leaves the world as it is and returns 0. *)
Theorem BreakSALine_empty_range (text : Z → Z) (rangeStart rangeEnd : Z) (w : World) :
  (rangeEnd ≤ rangeStart)%Z →
  BreakSALine e_thai e_lao e_burmese e_khmer engine_breakWord text rangeStart rangeEnd w =
    (0%Z, w) ∧
  engine_calls text rangeStart rangeEnd = [].
Proof.
  intros Hle. unfold engine_calls, BreakSALine, for_positions.
  rewrite positions_empty by lia. simpl.
  rewrite !decide_False by (intros [_ Hn]; apply Hn; reflexivity). done.
Qed.

(** X21. On a range without any code point of the four scripts the
    dispatcher calls no engine and leaves the world as it is. *)
Theorem BreakSALine_skips_unsupported_text (text : Z → Z) (rangeStart rangeEnd : Z)
    (w : World) :
  (∀ p, (rangeStart ≤ p < rangeEnd)%Z → classify_language (text p) = UNK) →
  engine_calls text rangeStart rangeEnd = [] ∧
  BreakSALine e_thai e_lao e_burmese e_khmer engine_breakWord text rangeStart rangeEnd w =
    (0%Z, w).
Proof.
  intros Hunk.
  assert (engine_calls text rangeStart rangeEnd = []) as Hcalls.
  { pose proof (engine_calls_sound text rangeStart rangeEnd) as Hs.
    destruct (engine_calls text rangeStart rangeEnd) as [|[[l s] e] cs]; [done|].
    inversion Hs as [|? ? (Hl & A1 & A2 & A3 & Hh) _]; subst.
    unfold homogeneous in Hh. simpl in *.
    exfalso. apply Hl. etransitivity; [symmetry; apply (Hh s); lia|]. apply Hunk. lia. }
  split; [exact Hcalls|]. rewrite BreakSALine_as_replay, Hcalls. reflexivity.
Qed.

(** X22. On a non-empty range whose code points all have one supported
    script the dispatcher is the engine of that script, called once on the
    whole range. *)
Theorem BreakSALine_single_script (text : Z → Z) (rangeStart rangeEnd : Z)
    (lang : SALang) (w : World) :
  (rangeStart < rangeEnd)%Z → lang ≠ UNK →
  (∀ p, (rangeStart ≤ p < rangeEnd)%Z → classify_language (text p) = lang) →
  chunks_formed text rangeStart rangeEnd = [(lang, rangeStart, rangeEnd)] ∧
  engine_calls text rangeStart rangeEnd = [(lang, rangeStart, rangeEnd)] ∧
  BreakSALine e_thai e_lao e_burmese e_khmer engine_breakWord text rangeStart rangeEnd w =
    (0%Z, snd (engine_breakWord
                 (get_break_engine_by_lang e_thai e_lao e_burmese e_khmer lang)
                 text rangeStart rangeEnd w)).
Proof.
  intros Hlt Hl Hall.
  assert (chunks_formed text rangeStart rangeEnd = [(lang, rangeStart, rangeEnd)]) as Hch.
  { apply (maximal_runs_unique text rangeStart rangeEnd).
    - apply chunks_formed_maximal. lia.
    - repeat split; try done.
      + repeat constructor. intros p Hp. apply Hall. exact Hp.
      + repeat constructor. simpl. lia. }
  assert (engine_calls text rangeStart rangeEnd = [(lang, rangeStart, rangeEnd)]) as Hcalls.
  { destruct (chunks_formed_facts text rangeStart rangeEnd) as (_ & _ & _ & ->); [lia|].
    rewrite Hch. unfold supported. rewrite filter_cons, filter_nil.
    rewrite decide_True by done. reflexivity. }
  split; [exact Hch|]. split; [exact Hcalls|].
  rewrite BreakSALine_as_replay, Hcalls. reflexivity.
Qed.

End MoreDispatcher.

(** X23. Neighbouring chunks of the walk have different scripts: no chunk
    could be extended into the next. *)
Theorem chunks_adjacent_differ (text : Z → Z) (rangeStart rangeEnd : Z) :
  adjacent_differ (chunks_formed text rangeStart rangeEnd).
Proof.
  destruct (decide (rangeStart ≤ rangeEnd)%Z) as [Hle|Hgt].
  - eapply maximal_runs_adjacent, chunks_formed_maximal, Hle.
  - destruct (chunks_formed_reversed text rangeStart rangeEnd) as [-> _]; [lia|].
    simpl. done.
Qed.

(** X24. The chunks of the walk are the decomposition of the range into
    maximal runs of one script, and the only one. *)
Theorem chunks_formed_unique (text : Z → Z) (rangeStart rangeEnd : Z) (cs : list chunk) :
  (rangeStart ≤ rangeEnd)%Z →
  maximal_runs text rangeStart rangeEnd (chunks_formed text rangeStart rangeEnd) ∧
  (maximal_runs text rangeStart rangeEnd cs → cs = chunks_formed text rangeStart rangeEnd).
Proof.
  intros Hle. split; [apply chunks_formed_maximal, Hle|].
  intros Hcs. apply (maximal_runs_unique text rangeStart rangeEnd); [done|].
  apply chunks_formed_maximal, Hle.
Qed.

(** The chunks of a range cut where the script changes are the chunks of
    the two parts. *)
Lemma chunks_formed_split (text : Z → Z) (rangeStart mid rangeEnd : Z) :
  (rangeStart ≤ mid ≤ rangeEnd)%Z →
  ((rangeStart < mid)%Z → (mid < rangeEnd)%Z →
     classify_language (text (mid - 1)%Z) ≠ classify_language (text mid)) →
  chunks_formed text rangeStart rangeEnd =
    chunks_formed text rangeStart mid ++ chunks_formed text mid rangeEnd.
Proof.
  intros Hmid Hchange. symmetry.
  apply (maximal_runs_unique text rangeStart rangeEnd); [|apply chunks_formed_maximal; lia].
  destruct (chunks_formed_maximal text rangeStart mid) as (Ht1 & Hh1 & He1); [lia|].
  destruct (chunks_formed_maximal text mid rangeEnd) as (Ht2 & Hh2 & He2); [lia|].
  split; [apply (tiles_app _ mid); done|]. split; [apply Forall_app; done|].
  apply Forall_app. split; [|done].
  apply Forall_forall. intros ck Hck Hend.
  destruct (tiles_chunk _ _ _ _ Ht1 Hck) as (A1 & A2 & A3).
  destruct (decide (snd ck < mid)%Z) as [Hlt|Hge].
  - apply (proj1 (Forall_forall _ _) He1 ck Hck Hlt).
  - assert (snd ck = mid) as Heq by lia.
    pose proof (proj1 (Forall_forall _ _) Hh1 ck Hck) as Hh.
    unfold ends_at_change, homogeneous in *. rewrite Heq.
    rewrite <- (Hh (mid - 1)%Z) by lia.
    intros Hsame. apply Hchange; [lia|lia|]. symmetry. exact Hsame.
Qed.

Section MoreLinked.
Context `{Scalar}.

Lemma breakWord_local (fData : LSTMData) (text1 text2 : Z → Z) (startPos endPos : Z)
    (log : list Z) :
  (∀ p, (startPos ≤ p < endPos)%Z → text1 p = text2 p) →
  breakWord fData text1 startPos endPos log = breakWord fData text2 startPos endPos log.
Proof.
  intros Hagree. unfold breakWord.
  rewrite (vectorize_ext fData text1 text2 startPos startPos); [reflexivity|].
  intros i Hi. apply Hagree. lia.
Qed.

(** X25. Cutting a range where the script changes (or at one of its ends)
    changes nothing: the chunks, the engine calls and the reported
    positions of the whole range are those of the first part followed by
    those of the second. *)
Theorem BreakSALine_splits_at_script_change
    (lstm_model_thai lstm_model_lao lstm_model_burmese lstm_model_khmer : lstm_data)
    (text : Z → Z) (rangeStart mid rangeEnd : Z) :
  (rangeStart ≤ mid ≤ rangeEnd)%Z →
  ((rangeStart < mid)%Z → (mid < rangeEnd)%Z →
     classify_language (text (mid - 1)%Z) ≠ classify_language (text mid)) →
  let run := λ lo hi,
    snd (BreakSALine_lstm lstm_model_thai lstm_model_lao lstm_model_burmese
           lstm_model_khmer text lo hi []) in
  chunks_formed text rangeStart rangeEnd =
    chunks_formed text rangeStart mid ++ chunks_formed text mid rangeEnd ∧
  engine_calls text rangeStart rangeEnd =
    engine_calls text rangeStart mid ++ engine_calls text mid rangeEnd ∧
  run rangeStart rangeEnd = run rangeStart mid ++ run mid rangeEnd.
Proof.
  intros Hmid Hchange run.
  pose proof (chunks_formed_split text rangeStart mid rangeEnd Hmid Hchange) as Hch.
  assert (engine_calls text rangeStart rangeEnd =
            engine_calls text rangeStart mid ++ engine_calls text mid rangeEnd) as Hcalls.
  { destruct (chunks_formed_facts text rangeStart rangeEnd) as (_ & _ & _ & ->); [lia|].
    destruct (chunks_formed_facts text rangeStart mid) as (_ & _ & _ & ->); [lia|].
    destruct (chunks_formed_facts text mid rangeEnd) as (_ & _ & _ & ->); [lia|].
    rewrite Hch. unfold supported. apply filter_app. }
  split; [exact Hch|]. split; [exact Hcalls|]. subst run. cbv beta.
  destruct (BreakSALine_lstm_reports lstm_model_thai lstm_model_lao lstm_model_burmese
              lstm_model_khmer text rangeStart rangeEnd) as (_ & _ & ->).
  destruct (BreakSALine_lstm_reports lstm_model_thai lstm_model_lao lstm_model_burmese
              lstm_model_khmer text rangeStart mid) as (_ & _ & ->).
  destruct (BreakSALine_lstm_reports lstm_model_thai lstm_model_lao lstm_model_burmese
              lstm_model_khmer text mid rangeEnd) as (_ & _ & ->).
  rewrite Hcalls, map_app, concat_app. reflexivity.
Qed.

(** X26. The dispatcher linked against the LSTM engines reads the text
    only inside the range: texts that agree there give the same return
    value and the same callbacks. *)
Theorem BreakSALine_reads_only_the_range
    (lstm_model_thai lstm_model_lao lstm_model_burmese lstm_model_khmer : lstm_data)
    (text1 text2 : Z → Z) (rangeStart rangeEnd : Z) (log : list Z) :
  (∀ p, (rangeStart ≤ p < rangeEnd)%Z → text1 p = text2 p) →
  BreakSALine_lstm lstm_model_thai lstm_model_lao lstm_model_burmese lstm_model_khmer
    text1 rangeStart rangeEnd log =
  BreakSALine_lstm lstm_model_thai lstm_model_lao lstm_model_burmese lstm_model_khmer
    text2 rangeStart rangeEnd log.
Proof.
  intros Hagree. unfold BreakSALine_lstm. rewrite !BreakSALine_as_replay.
  rewrite <- (engine_calls_ext text1 text2 rangeStart rangeEnd Hagree). f_equal.
  pose proof (engine_calls_sound text1 rangeStart rangeEnd) as Hs.
  revert log. induction (engine_calls text1 rangeStart rangeEnd) as [|[[l s] e] cs IH];
    intros log; [reflexivity|].
  inversion Hs as [|? ? (_ & A1 & A2 & A3 & _) Hs']; subst. simpl in *.
  unfold replay in *. simpl.
  rewrite (breakWord_local _ text1 text2 s e log) by (intros p Hp; apply Hagree; lia).
  apply IH, Hs'.
Qed.

End MoreLinked.

(** * The further properties on concrete inputs *)

Lemma nan_entries_partially_ordered (a : list (option Z)) :
  @partially_ordered_entries nan_scalar a.
Proof.
  unfold partially_ordered_entries. simpl. split.
  - intros [x|] _; [rewrite Z.gtb_ltb; apply Z.ltb_irrefl|reflexivity].
  - intros [x|] [y|] [z|] _ _ _; try discriminate.
    rewrite !Z.gtb_ltb, !Z.ltb_lt. lia.
Qed.

Lemma sample_thai_is_thai (p : Z) : classify_language (sample_thai p) = THAI.
Proof.
  unfold classify_language, sample_thai.
  pose proof (Z.mod_pos_bound (p * p) 7 ltac:(lia)) as Hb.
  replace ((3584 <=? 3585 + (p * p) mod 7)%Z) with true by (symmetry; apply Z.leb_le; lia).
  replace ((3585 + (p * p) mod 7 <? 3712)%Z) with true by (symmetry; apply Z.ltb_lt; lia).
  reflexivity.
Qed.

Lemma slice_write_through_witness :
  let a : list (@F Z_scalar) := [1; 2; 3; 4; 5]%Z in
  let s : list (@F Z_scalar) := [8; 9]%Z in
  (1 + 2 ≤ length a ∧ length s = 2) ∧
  @slice Z_scalar 1 2 (@slice_put Z_scalar 1 2 s a) = s ∧
  @slice_put Z_scalar 1 2 s a = [1; 8; 9; 4; 5]%Z.
Proof.
  intros a s. split; [split; [simpl; lia|reflexivity]|].
  destruct (@slice_write_through Z_scalar a s 1 2) as (Hread & _);
    [simpl; lia|reflexivity|].
  split; [exact Hread|reflexivity].
Defined.

Lemma Array2D_row_write_read_witness :
  let a := @Array2D_new Z_scalar 2 2 in
  let r : list (@F Z_scalar) := [5; 6]%Z in
  (@rows_ok Z_scalar a ∧ 1 < a2_d1 a ∧ length r = a2_d2 a) ∧
  @Array2D_row Z_scalar (@Array2D_row_put Z_scalar 1 r a) 1 = r ∧
  @Array2D_row Z_scalar (@Array2D_row_put Z_scalar 1 r a) 0 = [0; 0]%Z.
Proof.
  intros a r.
  assert (@rows_ok Z_scalar a ∧ 1 < a2_d1 a ∧ length r = a2_d2 a) as Hyp
    by (repeat split; simpl; lia).
  split; [exact Hyp|]. destruct Hyp as (H1 & H2 & H3).
  destruct (@Array2D_row_write_read Z_scalar a 1 r H1 H2 H3) as (Hread & _).
  split; [exact Hread|reflexivity].
Defined.

Lemma addHadamardProduct_is_add_of_product_witness :
  let a : list (@F Z_scalar) := [2; 3]%Z in
  let b := @Array1D_read Z_scalar [5; 7]%Z in
  let this : list (@F Z_scalar) := [1; 1]%Z in
  length a = length this ∧
  @addHadamardProduct Z_scalar (@Array1D_read Z_scalar a) b this = [11; 22]%Z ∧
  @add Z_scalar (@Array1D_read Z_scalar (@hadamardProduct Z_scalar b a)) this = [11; 22]%Z.
Proof.
  intros a b this. split; [reflexivity|].
  rewrite <- (@addHadamardProduct_is_add_of_product Z_scalar a b this eq_refl).
  split; reflexivity.
Defined.

Lemma LSTMData_new_partitions_blob_witness :
  length (@matrices Z_scalar sample_model) = @blob_size Z_scalar sample_model ∧
  @ConstArray2D_window Z_scalar (fOutputW (@LSTMData_new Z_scalar sample_model)) =
    [2; 0; 0; 0; 0; 0; 0; 3]%Z ∧
  @matrices Z_scalar sample_model =
    [1; -2; 1]%Z ++
    [0; 0; 3; 0]%Z ++ [0; 0; 0; 0]%Z ++ [1; 1; 0; 1]%Z ++
    [0; 0; 3; 0]%Z ++ [0; 0; 0; 0]%Z ++ [1; 1; 0; 1]%Z ++
    [2; 0; 0; 0; 0; 0; 0; 3]%Z ++ [0; 1; 0; 0]%Z.
Proof.
  split; [reflexivity|]. split; [reflexivity|].
  rewrite (@LSTMData_new_partitions_blob Z_scalar sample_model eq_refl) at 1.
  reflexivity.
Defined.

Lemma LSTMData_new_views_in_bounds_witness :
  length (@matrices Z_scalar sample_model) = @blob_size Z_scalar sample_model ∧
  ∀ i j, i < 2 → j < 4 →
    i * 4 + j < length (ca2_data (fOutputW (@LSTMData_new Z_scalar sample_model))).
Proof.
  split; [reflexivity|].
  destruct (@LSTMData_new_views_in_bounds Z_scalar sample_model eq_refl)
    as (_ & _ & _ & _ & _ & _ & _ & Hout & _).
  exact Hout.
Defined.

Lemma compute_ignores_scratch_witness :
  let fData := @LSTMData_new Z_scalar sample_model in
  let W := @ConstArray2D_read Z_scalar (fForwardW fData) in
  let U := @ConstArray2D_read Z_scalar (fForwardU fData) in
  let b := @ConstArray1D_read Z_scalar (fForwardB fData) in
  let x := @ConstArray1D_read Z_scalar (ConstArray2D_row (fEmbedding fData) 1) in
  length ([7; 7; 7; 7]%Z : list (@F Z_scalar)) = length ([0; 0; 0; 0]%Z : list (@F Z_scalar)) ∧
  @compute Z_scalar 1 W U b x [1%Z] [2%Z] [7; 7; 7; 7]%Z =
  @compute Z_scalar 1 W U b x [1%Z] [2%Z] [0; 0; 0; 0]%Z.
Proof.
  intros fData W U b x. split; [reflexivity|].
  apply (@compute_ignores_scratch Z_scalar 1 W U b x [1%Z] [2%Z]
           [0; 0; 0; 0]%Z [7; 7; 7; 7]%Z eq_refl).
Defined.

Lemma maxIndex_in_range_witness :
  let a : list (@F nan_scalar) := [None; Some 3%Z; None; Some 5%Z] in
  a ≠ [] ∧ @maxIndex nan_scalar a < length a ∧ @maxIndex nan_scalar a = 0.
Proof.
  intros a. split; [discriminate|].
  destruct (@maxIndex_in_range nan_scalar a) as [Hin _]; [discriminate|].
  split; [exact Hin|reflexivity].
Defined.

Lemma maxIndex_not_exceeded_witness :
  let a : list (@F nan_scalar) := [Some 1%Z; None; Some 2%Z; Some 2%Z] in
  (a ≠ [] ∧ @partially_ordered_entries nan_scalar a) ∧
  @maxIndex nan_scalar a = 2 ∧
  ∀ j, j < length a →
    @fgt nan_scalar (@rd nan_scalar a j) (@rd nan_scalar a (@maxIndex nan_scalar a)) = false.
Proof.
  intros a. split; [split; [discriminate|apply nan_entries_partially_ordered]|].
  split; [reflexivity|].
  apply (@maxIndex_not_exceeded nan_scalar a);
    [discriminate|apply nan_entries_partially_ordered].
Defined.

Lemma breakWord_empty_range_witness :
  (5 ≤ 5)%Z ∧
  @breakWord Z_scalar (LSTMData_new sample_model) sample_thai 5 5 [1%Z] = (0%Z, [1%Z]).
Proof.
  split; [lia|].
  apply (@breakWord_empty_range Z_scalar (LSTMData_new sample_model) sample_thai 5 5 [1%Z]).
  lia.
Defined.

Lemma breakWord_depends_on_range_content_witness :
  let text2 := λ p, sample_thai (p - 10)%Z in
  ((8 - 0 = 18 - 10)%Z ∧
   (∀ i, (0 ≤ i < 8 - 0)%Z → sample_thai (0 + i)%Z = text2 (10 + i)%Z)) ∧
  @breakWord Z_scalar (LSTMData_new sample_model) sample_thai 0 8 [] = (0%Z, [3; 4; 7]%Z) ∧
  snd (@breakWord Z_scalar (LSTMData_new sample_model) text2 10 18 []) = [13; 14; 17]%Z.
Proof.
  intros text2.
  assert (∀ i, (0 ≤ i < 8 - 0)%Z → sample_thai (0 + i)%Z = text2 (10 + i)%Z) as Hagree
    by (intros i Hi; unfold text2; f_equal; lia).
  split; [split; [lia|exact Hagree]|].
  destruct (@breakWord_depends_on_range_content Z_scalar (LSTMData_new sample_model)
              sample_thai text2 0 8 10 18 [] ltac:(lia) Hagree) as (_ & Hsnd).
  split; [vm_compute; reflexivity|].
  change (map _ []) with (@nil Z) in Hsnd. rewrite Hsnd. vm_compute. reflexivity.
Defined.

Lemma BreakSALine_empty_range_witness :
  (4 ≤ 7)%Z ∧
  @BreakSALine_lstm Z_scalar sample_model sample_model sample_model sample_model
    sample_mixed 7 4 [] = (0%Z, []).
Proof.
  split; [lia|].
  apply (@BreakSALine_empty_range _ _
           (LSTMData_new sample_model) (LSTMData_new sample_model)
           (LSTMData_new sample_model) (LSTMData_new sample_model)
           (@breakWord Z_scalar) sample_mixed 7 4 []).
  lia.
Defined.

Lemma BreakSALine_skips_unsupported_text_witness :
  let latin := λ _ : Z, 0x61%Z in
  (∀ p, (0 ≤ p < 5)%Z → classify_language (latin p) = UNK) ∧
  @BreakSALine_lstm Z_scalar sample_model sample_model sample_model sample_model
    latin 0 5 [] = (0%Z, []).
Proof.
  intros latin.
  assert (∀ p, (0 ≤ p < 5)%Z → classify_language (latin p) = UNK) as Hunk
    by (intros p _; reflexivity).
  split; [exact Hunk|].
  apply (@BreakSALine_skips_unsupported_text _ _
           (LSTMData_new sample_model) (LSTMData_new sample_model)
           (LSTMData_new sample_model) (LSTMData_new sample_model)
           (@breakWord Z_scalar) latin 0 5 [] Hunk).
Defined.

Lemma BreakSALine_single_script_witness :
  ((0 < 8)%Z ∧ THAI ≠ UNK ∧
   (∀ p, (0 ≤ p < 8)%Z → classify_language (sample_thai p) = THAI)) ∧
  engine_calls sample_thai 0 8 = [(THAI, 0, 8)]%Z ∧
  @BreakSALine_lstm Z_scalar sample_model sample_model sample_model sample_model
    sample_thai 0 8 [] = (0%Z, [3; 4; 7]%Z).
Proof.
  assert (∀ p, (0 ≤ p < 8)%Z → classify_language (sample_thai p) = THAI) as Hthai
    by (intros p _; apply sample_thai_is_thai).
  split; [split; [lia|split; [discriminate|exact Hthai]]|].
  destruct (@BreakSALine_single_script _ _
              (LSTMData_new sample_model) (LSTMData_new sample_model)
              (LSTMData_new sample_model) (LSTMData_new sample_model)
              (@breakWord Z_scalar) sample_thai 0 8 THAI [] ltac:(lia) ltac:(discriminate) Hthai)
    as (_ & Hcalls & Hrun).
  split; [exact Hcalls|]. unfold BreakSALine_lstm. rewrite Hrun. vm_compute. reflexivity.
Defined.

Lemma chunks_formed_unique_witness :
  (0 ≤ 10)%Z ∧
  maximal_runs sample_mixed 0 10 (chunks_formed sample_mixed 0 10) ∧
  chunks_formed sample_mixed 0 10 =
    [(UNK, 0, 2); (THAI, 2, 6); (KHMER, 6, 9); (UNK, 9, 10)]%Z.
Proof.
  split; [lia|].
  destruct (chunks_formed_unique sample_mixed 0 10 [] ltac:(lia)) as (Hmax & _).
  split; [exact Hmax|vm_compute; reflexivity].
Defined.

Lemma BreakSALine_splits_at_script_change_witness :
  ((0 ≤ 6 ≤ 10)%Z ∧
   ((0 < 6)%Z → (6 < 10)%Z →
      classify_language (sample_mixed (6 - 1)) ≠ classify_language (sample_mixed 6))) ∧
  engine_calls sample_mixed 0 10 = engine_calls sample_mixed 0 6 ++ engine_calls sample_mixed 6 10 ∧
  engine_calls sample_mixed 0 6 = [(THAI, 2, 6)]%Z ∧
  engine_calls sample_mixed 6 10 = [(KHMER, 6, 9)]%Z.
Proof.
  assert ((0 < 6)%Z → (6 < 10)%Z →
            classify_language (sample_mixed (6 - 1)) ≠ classify_language (sample_mixed 6))
    as Hchange by (intros _ _; vm_compute; discriminate).
  split; [split; [lia|exact Hchange]|].
  destruct (@BreakSALine_splits_at_script_change Z_scalar sample_model sample_model
              sample_model sample_model sample_mixed 0 6 10 ltac:(lia) Hchange)
    as (_ & Hcalls & _).
  split; [exact Hcalls|]. split; vm_compute; reflexivity.
Defined.

Lemma BreakSALine_reads_only_the_range_witness :
  let text2 := λ p, if ((0 <=? p) && (p <? 10))%Z then sample_mixed p else 0x0E01%Z in
  (∀ p, (0 ≤ p < 10)%Z → sample_mixed p = text2 p) ∧
  @BreakSALine_lstm Z_scalar sample_model sample_model sample_model sample_model
    text2 0 10 [] = (0%Z, [4%Z]).
Proof.
  intros text2.
  assert (∀ p, (0 ≤ p < 10)%Z → sample_mixed p = text2 p) as Hagree.
  { intros p Hp. unfold text2.
    replace ((0 <=? p)%Z) with true by (symmetry; apply Z.leb_le; lia).
    replace ((p <? 10)%Z) with true by (symmetry; apply Z.ltb_lt; lia).
    reflexivity. }
  split; [exact Hagree|].
  rewrite <- (@BreakSALine_reads_only_the_range Z_scalar sample_model sample_model
                sample_model sample_model sample_mixed text2 0 10 [] Hagree).
  vm_compute. reflexivity.
Defined.
